(** * Query resolution of the ANN server (app/resources/ann.py)

    A shallow embedding of [Rec] and [ANNResource]: the neighbour search by
    identifier or by vector, the out-of-index (OOI) vector lookup, the
    fallback chain, the score threshold and the POST handler.

    Modelling choices.
    - Distances and scores are Python floats in the source; they are modelled
      as exact rationals ([Q]), so rounding is not represented.
    - The Annoy index, the Dynamo table and the archive loader are external
      collaborators. They are oracles stored in the resource; every call
      to one of them is recorded as an [event], so that the order and the
      arguments of the calls can be stated.
    - Python exceptions are values of [exn]; a computation is a trace of
      events together with an exception or a result.
    - A resource refers to its fallback parent and to its peer index; the
      chain of these references is taken to be finite and acyclic. *)

From Stdlib Require Import ZArith QArith Lia.
From stdpp Require Import base option gmap strings list.

Set Warnings "-register-all".
Local Open Scope Z_scope.

(** ** Values *)

Definition ident := string.
Definition vector := list Q.

(** Strict comparison on floats, [x < y]. *)
Definition Qltb (x y : Q) : bool := negb (Qle_bool y x).

(** ** Exceptions, events and the computation monad *)

Inductive exn :=
| KeyError (key : string)
| IndexError
| TypeError
| JSONDecodeError
| Exception_ (msg : string)
| StoreError
| EngineError.

Inductive event :=
| EvNnsByItem (res : string) (ind : nat) (n : Z) (include_distances : bool)
| EvNnsByVector (res : string) (v : vector) (n : Z) (include_distances : bool)
| EvItemVector (res : string) (ind : nat)
| EvDynamoGet (res : string) (q_id : ident)
| EvNeedsReload (res : string)
| EvLoad (res : string) (reload : bool)
| EvPrint (e : exn).

Definition M (A : Type) : Type := (list event * (exn + A))%type.

Definition ret {A} (a : A) : M A := ([], inr a).
Definition raise {A} (e : exn) : M A := ([], inl e).
Definition emit (ev : event) : M unit := ([ev], inr tt).
Definition lift {A} (r : exn + A) : M A := ([], r).

Definition bind {A B} (m : M A) (f : A -> M B) : M B :=
  match m with
  | (t, inl e) => (t, inl e)
  | (t, inr a) => (t ++ fst (f a), snd (f a))
  end.

Notation "x <- c1 ;; c2" := (bind c1 (fun x => c2))
  (at level 100, c1 at next level, right associativity).
Notation "c1 ;;; c2" := (bind c1 (fun _ => c2))
  (at level 100, right associativity).

Definition trace {A} (m : M A) : list event := fst m.
Definition outcome {A} (m : M A) : exn + A := snd m.

(** ** class Rec *)

Module Rec.

Record t := mk { id_ : ident; dist : option Q }.

(** [Rec.score]: [None] when [dist] is [None], else [1. - dist / 2.]. *)
Definition score (self : t) : option Q :=
  match dist self with
  | None => None
  | Some d => Some (1 - d / 2)%Q
  end.

(** The dictionary built by [to_dict]: a key that is not included is
    [None]; an included key holds the (possibly [None]) value. *)
Record dict := mk_dict {
  d_id : ident;
  d_dist : option (option Q);
  d_score : option (option Q) }.

Definition to_dict (self : t) (incl_dist incl_score : bool) : dict :=
  {| d_id := id_ self;
     d_dist := if incl_dist then Some (dist self) else None;
     d_score := if incl_score then Some (score self) else None |}.

End Rec.

(** ** External collaborators *)

(** The Annoy index. Each query takes the number of results asked for and
    the [include_distances] flag, and returns ordinals with distances (the
    distances are read only when the flag is set), or raises. *)
Record AnnoyIndex := mkAnnoyIndex {
  get_nns_by_item : nat -> Z -> bool -> exn + (list nat * list Q);
  get_nns_by_vector : vector -> Z -> bool -> exn + (list nat * list Q);
  get_item_vector : nat -> exn + vector }.

(** The Dynamo table of stored embeddings. *)
Definition DynamoTable := ident -> exn + option vector.

(** ** class ANNResource *)

(** [ann_index] stands for the property of that name, the index that
    [load_index] opens from [path_index_local] and [ann_meta_d]. *)
Inductive ANNResource := mkANNResource {
  path_tar : string;
  ooi_dynamo_table : option DynamoTable;
  ids : list ident;
  ids_d : gmap ident nat;
  ann_index : AnnoyIndex;
  fallback_parent : option ANNResource;
  ooi_ann : option ANNResource }.

Definition set_fallback (self : ANNResource) (parent : ANNResource)
  : ANNResource :=
  {| path_tar := path_tar self;
     ooi_dynamo_table := ooi_dynamo_table self;
     ids := ids self;
     ids_d := ids_d self;
     ann_index := ann_index self;
     fallback_parent := Some parent;
     ooi_ann := ooi_ann self |}.

(** Modelled from the spec: [get_dynamo_emb] of [app/io] is not part of the
    sources at hand. Given a table and an identifier it returns the stored
    vector or [None]; a failure of the store is an exception, distinct from
    absence. *)
Definition get_dynamo_emb (res : string) (table : DynamoTable) (q_id : ident)
  : M (option vector) :=
  emit (EvDynamoGet res q_id) ;;; lift (table q_id).

(** [self.ids[ind]] for each ordinal, raising [IndexError] out of range. *)
Fixpoint ids_of_inds (l : list ident) (inds : list nat) : exn + list ident :=
  match inds with
  | [] => inr []
  | ind :: inds' =>
      match l !! ind with
      | None => inl IndexError
      | Some id => match ids_of_inds l inds' with
                   | inl e => inl e
                   | inr rest => inr (id :: rest)
                   end
      end
  end.

(** [zip(ids, dists)] mapped to [Rec]: stops at the shorter list. *)
Fixpoint zip_recs (l : list ident) (dists : list (option Q)) : list Rec.t :=
  match l, dists with
  | id :: l', d :: dists' => Rec.mk id d :: zip_recs l' dists'
  | _, _ => []
  end.

Definition recs_via_ann_out (self : ANNResource)
    (ann_out : list nat * list Q) (incl_dist : bool) : M (list Rec.t) :=
  let inds := fst ann_out in
  let dists := if incl_dist then map Some (snd ann_out)
               else replicate (length inds) None in
  l <- lift (ids_of_inds (ids self) inds) ;;
  ret (zip_recs l dists).

(** The optional argument [ann_index] of [nn_from_emb] and [nn_from_id] is
    left out: no caller passes an index other than [self.ann_index]. *)
Definition nn_from_emb (self : ANNResource) (q_emb : vector) (k : Z)
    (incl_dist : bool) : M (list Rec.t) :=
  emit (EvNnsByVector (path_tar self) q_emb k incl_dist) ;;;
  ann_out <- lift (get_nns_by_vector (ann_index self) q_emb k incl_dist) ;;
  recs_via_ann_out self ann_out incl_dist.

Fixpoint get_vector (self : ANNResource) (q_id : ident) {struct self}
  : M (option vector) :=
  match ids_d self !! q_id with
  | Some q_ind =>
      emit (EvItemVector (path_tar self) q_ind) ;;;
      q_emb <- lift (get_item_vector (ann_index self) q_ind) ;;
      ret (Some q_emb)
  | None =>
      match ooi_dynamo_table self with
      | Some table => get_dynamo_emb (path_tar self) table q_id
      | None =>
          match ooi_ann self with
          | Some peer => get_vector peer q_id
          | None => ret None
          end
      end
  end.

Definition nn_from_id (self : ANNResource) (q_id : ident) (k : Z)
    (incl_dist : bool) : M (list Rec.t) :=
  neighbors <-
    match ids_d self !! q_id with
    | Some q_ind =>
        emit (EvNnsByItem (path_tar self) q_ind (k + 1) incl_dist) ;;;
        ann_out <-
          lift (get_nns_by_item (ann_index self) q_ind (k + 1) incl_dist) ;;
        recs_via_ann_out self ann_out incl_dist
    | None =>
        match ooi_dynamo_table self with
        | Some table =>
            q_emb <- get_dynamo_emb (path_tar self) table q_id ;;
            match q_emb with
            | None =>
                raise (Exception_
                  "Q is ooi and doesnt exist in the ooi dynamo table")
            | Some v => nn_from_emb self v k incl_dist
            end
        | None =>
            match ooi_ann self with
            | Some peer =>
                q_emb <- get_vector peer q_id ;;
                match q_emb with
                | None =>
                    raise (Exception_
                      "Q is ooi and doesnt exist in the ooi ann")
                | Some v => nn_from_emb self v k incl_dist
                end
            | None =>
                raise (Exception_ "Q is ooi and no ooi dynamo table was set")
            end
        end
    end ;;
  ret (filter (fun n => Rec.id_ n <> q_id) neighbors).

(** ** The query payload *)

(** The JSON object of a request. A key that is absent is [None]. *)
Record Payload := mkPayload {
  p_k : option Z;
  p_id : option ident;
  p_emb : option vector;
  p_incl_dist : option bool;
  p_incl_score : option bool;
  p_thresh_score : option Q }.

(** [{**payload, **{'k': k}}] *)
Definition with_k (payload : Payload) (k : Z) : Payload :=
  {| p_k := Some k;
     p_id := p_id payload;
     p_emb := p_emb payload;
     p_incl_dist := p_incl_dist payload;
     p_incl_score := p_incl_score payload;
     p_thresh_score := p_thresh_score payload |}.

Definition with_thresh_score (payload : Payload) (t : option Q) : Payload :=
  {| p_k := p_k payload;
     p_id := p_id payload;
     p_emb := p_emb payload;
     p_incl_dist := p_incl_dist payload;
     p_incl_score := p_incl_score payload;
     p_thresh_score := t |}.

Definition with_emb (payload : Payload) (v : option vector) : Payload :=
  {| p_k := p_k payload;
     p_id := p_id payload;
     p_emb := v;
     p_incl_dist := p_incl_dist payload;
     p_incl_score := p_incl_score payload;
     p_thresh_score := p_thresh_score payload |}.

(** [payload['k']] *)
Definition payload_k (payload : Payload) : exn + Z :=
  match p_k payload with
  | Some k => inr k
  | None => inl (KeyError "k")
  end.

(** [float(thresh_score) if thresh_score else False]: an absent or zero
    threshold is falsy and stays falsy in [if thresh_score:]; [None] stands
    for [False]. *)
Definition thresh_score_of (payload : Payload) : option Q :=
  match p_thresh_score payload with
  | Some t => if Qeq_bool t 0 then None else Some t
  | None => None
  end.

(** [bool(incl_dist or incl_score or thresh_score)] *)
Definition include_distances_of (payload : Payload) : bool :=
  default false (p_incl_dist payload)
  || default false (p_incl_score payload)
  || bool_decide (is_Some (thresh_score_of payload)).

(** [[n for n in neighbors if n.score > thresh_score]]; comparing a [None]
    score with a float raises [TypeError]. *)
Fixpoint thresh_filter (thresh_score : Q) (neighbors : list Rec.t)
  : exn + list Rec.t :=
  match neighbors with
  | [] => inr []
  | n :: rest =>
      match Rec.score n with
      | None => inl TypeError
      | Some s =>
          match thresh_filter thresh_score rest with
          | inl e => inl e
          | inr rest' =>
              inr (if Qltb thresh_score s then n :: rest' else rest')
          end
      end
  end.

(** [l[:k]], with Python's reading of a negative bound. *)
Definition slice_to {A} (l : list A) (k : Z) : list A :=
  if 0 <=? k then take (Z.to_nat k) l
  else take (Z.to_nat (Z.of_nat (length l) + k)) l.

(** The search of [nn_from_payload] proper, lines 196 to 205: by [id] if
    the payload has that key, else by [emb], else an exception. *)
Definition query_of (self : ANNResource) (payload : Payload) (k : Z)
  : M (list Rec.t) :=
  match p_id payload, p_emb payload with
  | Some q_id, _ => nn_from_id self q_id k (include_distances_of payload)
  | None, Some q_emb =>
      nn_from_emb self q_emb k (include_distances_of payload)
  | None, None => raise (Exception_ "Payload must contain `id` or `emb`")
  end.

Fixpoint nn_from_payload (self : ANNResource) (payload : Payload)
    {struct self} : M (list Rec.t) :=
  k <- lift (payload_k payload) ;;
  neighbors <- query_of self payload k ;;
  neighbors <-
    (if bool_decide (Z.of_nat (length neighbors) < k) then
       match fallback_parent self with
       | Some parent =>
           neighbors_fallback <-
             nn_from_payload parent
               (with_k payload (k - Z.of_nat (length neighbors))) ;;
           ret (neighbors ++ neighbors_fallback)
       | None => ret neighbors
       end
     else ret neighbors) ;;
  neighbors <-
    match thresh_score_of payload with
    | Some t => lift (thresh_filter t neighbors)
    | None => ret neighbors
    end ;;
  ret (slice_to neighbors k).

(** ** The POST handler *)

Inductive Body :=
| BodyRecs (recs : list Rec.dict) (id_type : string)
| BodyEmptyList.

Record Response := mkResponse { status : string; body : Body }.

Definition HTTP_200 : string := "200 OK".

(** [req] is the outcome of [json.load] on the request stream. *)
Definition on_post (self : ANNResource) (req : exn + Payload)
  : list event * Response :=
  let attempt :=
    payload_json <- lift req ;;
    neighbors <- nn_from_payload self payload_json ;;
    let incl_dist := default false (p_incl_dist payload_json) in
    let incl_score := default false (p_incl_score payload_json) in
    ret (BodyRecs (map (fun n => Rec.to_dict n incl_dist incl_score) neighbors)
           "-") in
  match attempt with
  | (t, inr b) => (t, {| status := HTTP_200; body := b |})
  | (t, inl e) =>
      (t ++ [EvPrint e], {| status := HTTP_200; body := BodyEmptyList |})
  end.

(** ** Staleness and reload *)

Record Loaded := mkLoaded {
  l_ids : list ident;
  l_ids_d : gmap ident nat;
  l_index : AnnoyIndex }.

(** The remote store and the local working area, as [app/io] sees them. *)
Record Io := mkIo {
  remote_mtime : string -> Z;
  ts_read_utc : string -> option Z;
  load_via_tar : string -> bool -> exn + Loaded }.

(** Modelled from the spec: [needs_reload] of [app/io] is not part of the
    sources at hand. It is true if the remote archive is newer than the
    local copy or if there is no local copy. *)
Definition io_needs_reload (remote : Z) (local : option Z) : bool :=
  match local with
  | None => true
  | Some ts => ts <? remote
  end.

Definition needs_reload (io : Io) (self : ANNResource) : M bool :=
  emit (EvNeedsReload (path_tar self)) ;;;
  ret (io_needs_reload (remote_mtime io (path_tar self))
         (ts_read_utc io (path_tar self))).

(** [path_tar or self.path_tar]: an argument that is [None] or the empty
    string gives way to the path of the resource. *)
Definition load (io : Io) (self : ANNResource) (path : option string)
    (reload : bool) : M ANNResource :=
  let path := match path with
              | Some p => if String.eqb p "" then path_tar self else p
              | None => path_tar self
              end in
  emit (EvLoad path reload) ;;;
  l <- lift (load_via_tar io path reload) ;;
  ret {| path_tar := path_tar self;
         ooi_dynamo_table := ooi_dynamo_table self;
         ids := l_ids l;
         ids_d := l_ids_d l;
         ann_index := l_index l;
         fallback_parent := fallback_parent self;
         ooi_ann := ooi_ann self |}.

Definition maybe_reload (io : Io) (self : ANNResource) : M ANNResource :=
  stale <- needs_reload io self ;;
  if stale then load io self None true else ret self.

(** ** The threshold rule as the specification words it

    Section 4.4 of the specification describes steps 4 to 6 as: backfill
    from the fallback parent with the deficit, then filter by the threshold
    once, on the own results plus everything appended, and not per fallback
    level; then truncate. [backfill] and [nn_from_payload_thresh_once]
    follow that wording; they are compared with [nn_from_payload] below. *)

Fixpoint backfill (self : ANNResource) (payload : Payload) (k : Z)
    {struct self} : M (list Rec.t) :=
  neighbors <- query_of self payload k ;;
  if bool_decide (Z.of_nat (length neighbors) < k) then
    match fallback_parent self with
    | Some parent =>
        let deficit := k - Z.of_nat (length neighbors) in
        neighbors_fallback <- backfill parent payload deficit ;;
        ret (neighbors ++ slice_to neighbors_fallback deficit)
    | None => ret neighbors
    end
  else ret neighbors.

Definition nn_from_payload_thresh_once (self : ANNResource)
    (payload : Payload) : M (list Rec.t) :=
  k <- lift (payload_k payload) ;;
  neighbors <- backfill self payload k ;;
  neighbors <-
    match thresh_score_of payload with
    | Some t => lift (thresh_filter t neighbors)
    | None => ret neighbors
    end ;;
  ret (slice_to neighbors k).

(** Along the run of a query for [k] neighbours, [self] and every fallback
    level that is reached return, from their own search, no more
    neighbours than the level was asked for. An engine that returns at
    most the number of results asked for, the query item among them, makes
    this true. *)
Fixpoint within_request (self : ANNResource) (payload : Payload) (k : Z)
    {struct self} : bool :=
  match outcome (query_of self payload k) with
  | inl _ => true
  | inr neighbors =>
      bool_decide (Z.of_nat (length neighbors) <= k)
      && (if bool_decide (Z.of_nat (length neighbors) < k) then
            match fallback_parent self with
            | Some parent =>
                within_request parent payload
                  (k - Z.of_nat (length neighbors))
            | None => true
            end
          else true)
  end.

(** The same for the fallback levels only. *)
Definition fallbacks_within_request (self : ANNResource) (payload : Payload)
    (k : Z) : bool :=
  match outcome (query_of self payload k) with
  | inl _ => true
  | inr neighbors =>
      if bool_decide (Z.of_nat (length neighbors) < k) then
        match fallback_parent self with
        | Some parent =>
            within_request parent payload (k - Z.of_nat (length neighbors))
        | None => true
        end
      else true
  end.

(** ** Observations on computations *)

Definition raises {A} (m : M A) : bool :=
  match outcome m with
  | inl _ => true
  | inr _ => false
  end.

Definition is_search_event (ev : event) : bool :=
  match ev with
  | EvNnsByItem _ _ _ _ | EvNnsByVector _ _ _ _ => true
  | _ => false
  end.

Definition is_reload_event (ev : event) : bool :=
  match ev with
  | EvNeedsReload _ | EvLoad _ _ => true
  | _ => false
  end.

(** Every search of the trace comes after some staleness check. *)
Fixpoint checked_before_search (t : list event) : bool :=
  match t with
  | [] => true
  | ev :: t' =>
      if is_reload_event ev then true
      else if is_search_event ev then false
      else checked_before_search t'
  end.

Definition no_reload (t : list event) : Prop :=
  Forall (fun ev => is_reload_event ev = false) t.

(** Two payloads that ask the same question: same [k], same identifier,
    same vector when there is no identifier, same flags as the resolver
    reads them. *)
Definition same_query (p1 p2 : Payload) : Prop :=
  p_k p1 = p_k p2 /\
  p_id p1 = p_id p2 /\
  (p_id p1 = None -> p_emb p1 = p_emb p2) /\
  include_distances_of p1 = include_distances_of p2 /\
  thresh_score_of p1 = thresh_score_of p2.

(** A neighbour passes the threshold [t] when its score is above it. *)
Definition passes (t : Q) (n : Rec.t) : Prop :=
  exists s, Rec.score n = Some s /\ (t < s)%Q.

(** ** Concrete indexes *)

Module Examples.

(** An engine with a fixed ranking per item and one ranking for every
    vector; it returns the first [n] entries of the ranking. *)
Definition ranked_index (by_item : nat -> list (nat * Q))
    (by_vector : list (nat * Q)) (vectors : nat -> vector) : AnnoyIndex :=
  {| get_nns_by_item := fun i n _ =>
       let r := take (Z.to_nat n) (by_item i) in inr (map fst r, map snd r);
     get_nns_by_vector := fun _ n _ =>
       let r := take (Z.to_nat n) by_vector in inr (map fst r, map snd r);
     get_item_vector := fun i => inr (vectors i) |}.

Definition ids_d_of (l : list ident) : gmap ident nat :=
  list_to_map (zip l (seq 0 (length l))).

Definition resource (name : string) (l : list ident) (index : AnnoyIndex)
    (table : option DynamoTable) (peer parent : option ANNResource)
  : ANNResource :=
  {| path_tar := name;
     ooi_dynamo_table := table;
     ids := l;
     ids_d := ids_d_of l;
     ann_index := index;
     fallback_parent := parent;
     ooi_ann := peer |}.

(** Ids [A, B, C, D]; the neighbours of [A] are [A, B, C, D] at distances
    [0, 0.2, 0.6, 1]; a vector query finds [B] and [C] only. *)
Definition shop_index : AnnoyIndex :=
  ranked_index
    (fun i => match i with
              | O => [(0%nat, 0%Q); (1%nat, 2 # 10); (2%nat, 6 # 10);
                      (3%nat, 1%Q)]
              | _ => []
              end)
    [(1%nat, 2 # 10); (2%nat, 6 # 10)]
    (fun _ => [1%Q; 0%Q; 0%Q]).

Definition shop : ANNResource :=
  resource "shop" ["A"; "B"; "C"; "D"] shop_index None None None.

(** Ids [E, F, G, H], ranked in that order for every vector. *)
Definition archive : ANNResource :=
  resource "archive" ["E"; "F"; "G"; "H"]
    (ranked_index (fun _ => [])
       [(0%nat, 1 # 10); (1%nat, 3 # 10); (2%nat, 5 # 10); (3%nat, 7 # 10)]
       (fun _ => []))
    None None None.

Definition shop_with_archive : ANNResource := set_fallback shop archive.

Definition empty_index : AnnoyIndex :=
  ranked_index (fun _ => []) [] (fun _ => []).

(** An index without [A], without OOI strategy, whose fallback parent
    holds [A]. *)
Definition orphan : ANNResource :=
  resource "orphan" [] empty_index None None (Some shop).

(** An index without [A] whose table does not know [A] either, while
    its peer index holds [A]. *)
Definition tabled : ANNResource :=
  resource "tabled" ["B"; "C"]
    (ranked_index (fun _ => []) [(0%nat, 2 # 10)] (fun _ => []))
    (Some (fun _ => inr None)) (Some shop) None.

(** [front] knows only [A]; its fallback [back] ranks [X] (distance 1.8)
    and [Y] (distance 0.2) as the neighbours of [A], without [A] itself. *)
Definition back : ANNResource :=
  resource "back" ["A"; "X"; "Y"]
    (ranked_index (fun _ => [(1%nat, 18 # 10); (2%nat, 2 # 10)]) []
       (fun _ => []))
    None None None.

Definition front : ANNResource :=
  resource "front" ["A"]
    (ranked_index (fun _ => [(0%nat, 0%Q)]) [] (fun _ => []))
    None None (Some back).

Definition by_id (q_id : ident) (k : Z) : Payload :=
  {| p_k := Some k; p_id := Some q_id; p_emb := None;
     p_incl_dist := None; p_incl_score := None; p_thresh_score := None |}.

Definition by_emb (q_emb : vector) (k : Z) : Payload :=
  {| p_k := Some k; p_id := None; p_emb := Some q_emb;
     p_incl_dist := None; p_incl_score := None; p_thresh_score := None |}.

(** A payload with both an identifier and a vector, and one with
    neither. *)
Definition both : Payload := with_emb (by_id "A" 2) (Some [1%Q; 0%Q; 0%Q]).
Definition neither : Payload := with_emb (by_emb [] 2) None.

(** Ids [A, N]; [N] is at distance 2 of [A], hence of score 0. *)
Definition far : ANNResource :=
  resource "far" ["A"; "N"]
    (ranked_index (fun _ => [(0%nat, 0%Q); (1%nat, 2%Q)]) [] (fun _ => []))
    None None None.

Definition by_id_scored (q_id : ident) (k : Z) (t : option Q) : Payload :=
  {| p_k := Some k; p_id := Some q_id; p_emb := None;
     p_incl_dist := None; p_incl_score := Some true; p_thresh_score := t |}.

(** The query for one neighbour of [A] with a score above 0.5. *)
Definition above_half : Payload :=
  with_thresh_score (by_id "A" 1) (Some (1 # 2)).

(** The query by vector for five neighbours with a score above 0.8. *)
Definition above_08 : Payload :=
  with_thresh_score (by_emb [1%Q] 5) (Some (8 # 10)).

End Examples.

(** ** The GET handler *)

(** The response of [on_get]: the body stays unset ([None]) when no vector
    is found. *)
Record GetResponse := mkGetResponse {
  g_status : string;
  g_body : option vector }.

(** [params_id] is [req.params] read at the key [id]. *)
Definition on_get (self : ANNResource) (params_id : option ident)
  : M GetResponse :=
  q_id <- lift (match params_id with
                | Some q_id => inr q_id
                | None => inl (KeyError "id")
                end) ;;
  q_emb <- get_vector self q_id ;;
  match q_emb with
  | None => ret {| g_status := HTTP_200; g_body := None |}
  | Some v => ret {| g_status := HTTP_200; g_body := Some v |}
  end.

(** ** dist_to_score *)

(** A neighbour dictionary as [dist_to_score] reads it: the keys [distance]
    and [score] may be missing; [nd_id] stands for the other keys. *)
Record ndict := mk_ndict {
  nd_id : ident;
  nd_distance : option Q;
  nd_score : option Q }.

(** [score_thresh] is [None] for [False] and for [float('-inf')], which the
    function treats alike. In [{'score': s, **d}] a key [score] of [d]
    replaces the computed one. *)
Fixpoint dist_to_score (l : list ndict) (score_thresh : option Q)
  : exn + list ndict :=
  match l with
  | [] => inr []
  | d :: l' =>
      match nd_distance d with
      | None => inl (KeyError "distance")
      | Some x =>
          let s := (1 - x / 2)%Q in
          match dist_to_score l' score_thresh with
          | inl e => inl e
          | inr rest =>
              if match score_thresh with
                 | None => true
                 | Some t => Qltb t s
                 end
              then inr ({| nd_id := nd_id d;
                           nd_distance := nd_distance d;
                           nd_score := Some (default s (nd_score d)) |}
                          :: rest)
              else inr rest
          end
      end
  end.

(** ** Further observations *)






(** The number of searches in a trace, and the number of fallback parents
    behind a resource. *)
Definition searches (t : list event) : nat :=
  length (filter (fun ev => is_search_event ev = true) t).

Fixpoint fallback_depth (self : ANNResource) : nat :=
  match fallback_parent self with
  | Some parent => S (fallback_depth parent)
  | None => 0%nat
  end.

Module Cases.

(** A store that fails, and an index behind it. *)
Definition broken_table : DynamoTable := fun _ => inl StoreError.

Definition behind_broken_table : ANNResource :=
  Examples.resource "guarded" ["B"] Examples.empty_index
    (Some broken_table) (Some Examples.shop) None.


Definition by_id_flags (q_id : ident) (k : Z) (incl_dist incl_score : bool)
  : Payload :=
  {| p_k := Some k; p_id := Some q_id; p_emb := None;
     p_incl_dist := Some incl_dist; p_incl_score := Some incl_score;
     p_thresh_score := None |}.

Definition dicts : list ndict :=
  [mk_ndict "B" (Some (2 # 10)) None;
   mk_ndict "N" (Some 2%Q) None;
   mk_ndict "C" (Some (6 # 10)) (Some 5%Q)].

End Cases.

(** * Properties *)

(** ** The computation monad *)

Section Monad.
Context {A B : Type}.
Implicit Types (m : M A) (f g : A -> M B).

Lemma bind_ext m f g : (forall a, f a = g a) -> bind m f = bind m g.
Proof. intros H. destruct m as [t [e | a]]; simpl; [done | by rewrite H]. Qed.

Lemma bind_inl m f t e : m = (t, inl e) -> bind m f = (t, inl e).
Proof. by intros ->. Qed.

Lemma bind_inr m f t a :
  m = (t, inr a) -> bind m f = (t ++ trace (f a), outcome (f a)).
Proof. by intros ->. Qed.

Lemma outcome_bind_inr m f b :
  outcome (bind m f) = inr b ->
  exists a, outcome m = inr a /\ outcome (f a) = inr b.
Proof. destruct m as [t [e | a]]; simpl; [done | eauto]. Qed.

Lemma outcome_bind_inl m f e :
  outcome m = inl e -> outcome (bind m f) = inl e.
Proof. destruct m as [t [e' | a]]; simpl; congruence. Qed.

Lemma trace_bind m f :
  trace (bind m f) =
  trace m ++ match outcome m with inl _ => [] | inr a => trace (f a) end.
Proof.
  destruct m as [t [e | a]]; simpl; [by rewrite app_nil_r | done].
Qed.
End Monad.

Lemma eta {A} (m : M A) : m = (trace m, outcome m).
Proof. by destruct m. Qed.

Lemma bind_assoc {A B C} (m : M A) (f : A -> M B) (g : B -> M C) :
  bind (bind m f) g = bind m (fun a => bind (f a) g).
Proof.
  destruct m as [t [e | a]]; simpl; [done |].
  destruct (f a) as [t' [e' | b]]; simpl; by rewrite ?app_assoc.
Qed.

Lemma bind_ext_on {A B} (m : M A) (f g : A -> M B) :
  (forall a, outcome m = inr a -> f a = g a) -> bind m f = bind m g.
Proof.
  intros H. destruct m as [t [e | a]]; simpl; [done | by rewrite H].
Qed.

(** ** Induction along the fallback and the peer references *)

Lemma ANNResource_chain_ind (P : ANNResource -> Prop) :
  (forall r,
      (forall p, fallback_parent r = Some p -> P p) ->
      (forall p, ooi_ann r = Some p -> P p) -> P r) ->
  forall r, P r.
Proof.
  intros step. fix IH 1. intros r. apply step.
  - destruct r as [? ? ? ? ? [parent|] ?]; simpl; intros p Hp;
      [injection Hp as <-; apply IH | discriminate].
  - destruct r as [? ? ? ? ? ? [peer|]]; simpl; intros p Hp;
      [injection Hp as <-; apply IH | discriminate].
Qed.

Lemma nn_from_payload_unfold self payload :
  nn_from_payload self payload =
  (k <- lift (payload_k payload) ;;
   neighbors <- query_of self payload k ;;
   neighbors <-
     (if bool_decide (Z.of_nat (length neighbors) < k) then
        match fallback_parent self with
        | Some parent =>
            neighbors_fallback <-
              nn_from_payload parent
                (with_k payload (k - Z.of_nat (length neighbors))) ;;
            ret (neighbors ++ neighbors_fallback)
        | None => ret neighbors
        end
      else ret neighbors) ;;
   neighbors <-
     match thresh_score_of payload with
     | Some t => lift (thresh_filter t neighbors)
     | None => ret neighbors
     end ;;
   ret (slice_to neighbors k)).
Proof. by destruct self. Qed.

Lemma get_vector_unfold self q_id :
  get_vector self q_id =
  match ids_d self !! q_id with
  | Some q_ind =>
      emit (EvItemVector (path_tar self) q_ind) ;;;
      q_emb <- lift (get_item_vector (ann_index self) q_ind) ;;
      ret (Some q_emb)
  | None =>
      match ooi_dynamo_table self with
      | Some table => get_dynamo_emb (path_tar self) table q_id
      | None =>
          match ooi_ann self with
          | Some peer => get_vector peer q_id
          | None => ret None
          end
      end
  end.
Proof. by destruct self. Qed.

(** ** Score *)



(** ** Basic facts on the helpers *)

Lemma bind_lift_inr {A B} (a : A) (f : A -> M B) : bind (lift (inr a)) f = f a.
Proof. unfold lift, bind. simpl. by destruct (f a). Qed.

Lemma bind_ret {A B} (a : A) (f : A -> M B) : bind (ret a) f = f a.
Proof. apply bind_lift_inr. Qed.

Lemma Qltb_lt t s : Qltb t s = true <-> (t < s)%Q.
Proof.
  unfold Qltb. rewrite negb_true_iff, <- not_true_iff_false, Qle_bool_iff.
  split; [apply Qnot_le_lt | apply Qlt_not_le].
Qed.

Lemma slice_to_Forall {A} (P : A -> Prop) (l : list A) k :
  Forall P l -> Forall P (slice_to l k).
Proof. unfold slice_to. destruct (0 <=? k); apply Forall_take. Qed.

Lemma slice_to_length {A} (l : list A) k :
  0 <= k -> Z.of_nat (length (slice_to l k)) <= k.
Proof.
  intros Hk. unfold slice_to.
  destruct (Z.leb_spec 0 k); [| lia]. rewrite length_take. lia.
Qed.

Lemma slice_to_all {A} (l : list A) k :
  Z.of_nat (length l) <= k -> slice_to l k = l.
Proof.
  intros Hk. unfold slice_to.
  destruct (Z.leb_spec 0 k); [| lia]. apply take_ge. lia.
Qed.

Lemma thresh_filter_Forall (P : Rec.t -> Prop) t l l' :
  thresh_filter t l = inr l' -> Forall P l -> Forall P l'.
Proof.
  revert l'. induction l as [| n l IH]; simpl; intros l' H Hl.
  - by injection H as <-.
  - destruct (Rec.score n); [| done].
    destruct (thresh_filter t l) as [| rest]; [done |].
    injection H as <-. inversion Hl; subst.
    destruct (Qltb t q); [constructor |]; auto.
Qed.

Lemma thresh_filter_passes t l l' :
  thresh_filter t l = inr l' -> Forall (passes t) l'.
Proof.
  revert l'. induction l as [| n l IH]; simpl; intros l' H.
  - injection H as <-. constructor.
  - destruct (Rec.score n) as [s |] eqn:Hs; [| done].
    destruct (thresh_filter t l) as [| rest]; [done |].
    injection H as <-. destruct (Qltb t s) eqn:Hlt; [| by apply IH].
    constructor; [| by apply IH]. exists s. by rewrite <- Qltb_lt.
Qed.

Lemma thresh_filter_total t l :
  Forall (fun n => is_Some (Rec.dist n)) l -> exists l', thresh_filter t l = inr l'.
Proof.
  induction 1 as [| n l [d Hd] _ [l' IH]]; simpl; [by eexists |].
  unfold Rec.score. rewrite Hd, IH. by eexists.
Qed.

Lemma thresh_filter_app t l1 l2 l1' l2' :
  thresh_filter t l1 = inr l1' -> thresh_filter t l2 = inr l2' ->
  thresh_filter t (l1 ++ l2) = inr (l1' ++ l2').
Proof.
  revert l1'. induction l1 as [| n l1 IH]; simpl; intros l1' H1 H2.
  - by injection H1 as <-.
  - destruct (Rec.score n); [| done].
    destruct (thresh_filter t l1) as [| rest]; [done |].
    injection H1 as <-. rewrite (IH rest eq_refl H2).
    by destruct (Qltb t q).
Qed.

Lemma thresh_filter_id t l : Forall (passes t) l -> thresh_filter t l = inr l.
Proof.
  induction 1 as [| n l (s & Hs & Hlt) _ IH]; simpl; [done |].
  rewrite Hs, IH. apply Qltb_lt in Hlt. by rewrite Hlt.
Qed.

Lemma with_k_same_query p1 p2 k :
  same_query p1 p2 -> same_query (with_k p1 k) (with_k p2 k).
Proof. intros (_ & ? & ? & ? & ?). by repeat split. Qed.

Lemma query_of_same_query self p1 p2 k :
  same_query p1 p2 -> query_of self p1 k = query_of self p2 k.
Proof.
  intros (_ & Hid & Hemb & Hincl & _). unfold query_of.
  rewrite <- Hid, <- Hincl. destruct (p_id p1); [done |].
  by rewrite <- Hemb.
Qed.

(** The resolver reads the payload only through [same_query]. *)
Lemma nn_from_payload_same_query self :
  forall p1 p2, same_query p1 p2 ->
    nn_from_payload self p1 = nn_from_payload self p2.
Proof.
  induction self as [self IHf _] using ANNResource_chain_ind.
  intros p1 p2 Hq. rewrite !nn_from_payload_unfold.
  pose proof Hq as (Hk & _ & _ & _ & Ht).
  unfold payload_k. rewrite <- Hk, <- Ht.
  apply bind_ext; intros k.
  rewrite (query_of_same_query self p1 p2 k Hq).
  apply bind_ext; intros neighbors.
  destruct (bool_decide _); [| done].
  destruct (fallback_parent self) as [parent |] eqn:Hp; [| done].
  by rewrite (IHf parent eq_refl _ _ (with_k_same_query _ _ _ Hq)).
Qed.

(** ** Malformed payloads *)

(** C6, as stated, fails: a payload that carries both an identifier and a
    vector is answered, as the query by that identifier. *)
Lemma both_id_and_emb_is_answered :
  p_id Examples.both = Some "A" /\
  p_emb Examples.both = Some [1%Q; 0%Q; 0%Q] /\
  nn_from_payload Examples.shop Examples.both =
    ([EvNnsByItem "shop" 0 3 false],
     inr [Rec.mk "B" None; Rec.mk "C" None]).
Proof. repeat split. Qed.

(** C6, amended. A payload with neither identifier nor vector raises (with
    the message of line 205 when [k] is there); a payload with an
    identifier is resolved by identifier whether or not it also carries a
    vector, which is then ignored. *)
Theorem payload_needs_id_or_emb self payload :
  (forall k, p_k payload = Some k -> p_id payload = None ->
     p_emb payload = None ->
     nn_from_payload self payload =
       ([], inl (Exception_ "Payload must contain `id` or `emb`"))) /\
  (p_id payload = None -> p_emb payload = None ->
     raises (nn_from_payload self payload) = true) /\
  (is_Some (p_id payload) ->
     nn_from_payload self payload =
       nn_from_payload self (with_emb payload None)).
Proof.
  assert (Hexact : forall k, p_k payload = Some k -> p_id payload = None ->
     p_emb payload = None ->
     nn_from_payload self payload =
       ([], inl (Exception_ "Payload must contain `id` or `emb`"))).
  { intros k Hk Hid Hemb. rewrite nn_from_payload_unfold.
    unfold payload_k, query_of. by rewrite Hk, Hid, Hemb. }
  split; [exact Hexact | split].
  - intros Hid Hemb. destruct (p_k payload) as [k |] eqn:Hk.
    + by rewrite (Hexact k).
    + rewrite nn_from_payload_unfold. unfold payload_k. by rewrite Hk.
  - intros [q Hq]. apply nn_from_payload_same_query.
    repeat split; simpl; try done. by rewrite Hq.
Qed.

Lemma payload_needs_id_or_emb_witness :
  nn_from_payload Examples.shop Examples.neither =
    ([], inl (Exception_ "Payload must contain `id` or `emb`")) /\
  raises (nn_from_payload Examples.shop Examples.neither) = true /\
  nn_from_payload Examples.shop Examples.both =
    nn_from_payload Examples.shop (with_emb Examples.both None).
Proof.
  split; [| split].
  - apply (proj1 (payload_needs_id_or_emb Examples.shop Examples.neither) 2);
      reflexivity.
  - apply (proj1 (proj2
             (payload_needs_id_or_emb Examples.shop Examples.neither)));
      reflexivity.
  - apply (proj2 (proj2 (payload_needs_id_or_emb Examples.shop Examples.both))).
    exists "A"%string. reflexivity.
Defined.

(** ** A zero threshold *)

(** C10. A [thresh_score] equal to zero is read as no threshold: the
    resolver computes exactly what it computes without the field, at every
    level of the fallback chain, and filters nothing. *)
Theorem zero_thresh_is_no_thresh self payload t :
  (t == 0)%Q ->
  thresh_score_of (with_thresh_score payload (Some t)) = None /\
  nn_from_payload self (with_thresh_score payload (Some t)) =
    nn_from_payload self (with_thresh_score payload None).
Proof.
  intros Ht.
  assert (Hnone : thresh_score_of (with_thresh_score payload (Some t)) = None).
  { unfold thresh_score_of. simpl.
    apply Qeq_bool_iff in Ht. by rewrite Ht. }
  split; [exact Hnone |].
  apply nn_from_payload_same_query.
  repeat split; try done.
  unfold include_distances_of. by rewrite Hnone.
Qed.

Lemma zero_thresh_is_no_thresh_witness :
  nn_from_payload Examples.far (Examples.by_id_scored "A" 1 (Some 0%Q)) =
    nn_from_payload Examples.far (Examples.by_id_scored "A" 1 None) /\
  outcome (nn_from_payload Examples.far
             (Examples.by_id_scored "A" 1 (Some 0%Q))) =
    inr [Rec.mk "N" (Some 2%Q)] /\
  Rec.score (Rec.mk "N" (Some 2%Q)) = Some (0 # 2)%Q.
Proof.
  split; [| split; reflexivity].
  apply (proj2 (zero_thresh_is_no_thresh Examples.far
                  (Examples.by_id_scored "A" 1 None) 0%Q (Qeq_refl 0%Q))).
Defined.

(** ** The POST handler *)

(** C8. [on_post] answers with status 200 whatever happens. When the body
    cannot be parsed or the resolution raises, the body is the empty list;
    otherwise it holds the neighbours. *)
Theorem on_post_always_200 self req :
  status (snd (on_post self req)) = HTTP_200 /\
  (match req with
   | inl _ => True
   | inr payload => raises (nn_from_payload self payload) = true
   end -> body (snd (on_post self req)) = BodyEmptyList) /\
  (forall payload neighbors,
     req = inr payload ->
     outcome (nn_from_payload self payload) = inr neighbors ->
     body (snd (on_post self req)) =
       BodyRecs
         (map (fun n => Rec.to_dict n (default false (p_incl_dist payload))
                          (default false (p_incl_score payload))) neighbors)
         "-").
Proof.
  unfold on_post. destruct req as [e | payload].
  - simpl. split; [done | split; [done |]]. intros ? ? [=].
  - rewrite bind_lift_inr. unfold raises.
    split; [| split].
    + by destruct (nn_from_payload self payload) as [t [e | ns]].
    + by destruct (nn_from_payload self payload) as [t [e | ns]].
    + intros ? ns [= <-].
      destruct (nn_from_payload self payload) as [t [e | ns']]; simpl; [done |].
      by intros [= <-].
Qed.

Lemma on_post_always_200_witness :
  status (snd (on_post Examples.shop (inr Examples.neither))) = HTTP_200 /\
  body (snd (on_post Examples.shop (inr Examples.neither))) = BodyEmptyList /\
  body (snd (on_post Examples.shop (inl JSONDecodeError))) = BodyEmptyList /\
  body (snd (on_post Examples.shop (inr (Examples.by_id "A" 2)))) =
    BodyRecs [Rec.mk_dict "B" None None; Rec.mk_dict "C" None None] "-".
Proof.
  split; [| split; [| split]].
  - apply (on_post_always_200 Examples.shop (inr Examples.neither)).
  - apply (proj1 (proj2
       (on_post_always_200 Examples.shop (inr Examples.neither)))).
    reflexivity.
  - apply (proj1 (proj2
       (on_post_always_200 Examples.shop (inl JSONDecodeError)))).
    exact I.
  - apply (proj2 (proj2
       (on_post_always_200 Examples.shop (inr (Examples.by_id "A" 2))))
       (Examples.by_id "A" 2) [Rec.mk "B" None; Rec.mk "C" None]);
      reflexivity.
Defined.

(** ** Out-of-index identifiers *)

(** C2, as stated, fails: the table does not know [A], the peer index
    holds the vector of [A], and the lookup raises after the table alone
    was asked. *)
Lemma table_absent_peer_not_asked :
  (exists table, ooi_dynamo_table Examples.tabled = Some table /\
                 table "A"%string = inr None) /\
  ooi_ann Examples.tabled = Some Examples.shop /\
  get_vector Examples.shop "A" =
    ([EvItemVector "shop" 0], inr (Some [1%Q; 0%Q; 0%Q])) /\
  nn_from_id Examples.tabled "A" 1 false =
    ([EvDynamoGet "tabled" "A"],
     inl (Exception_ "Q is ooi and doesnt exist in the ooi dynamo table")).
Proof.
  split; [| by repeat split]. eexists. split; reflexivity.
Qed.

(** C2, amended. For an identifier absent from the index exactly one OOI
    strategy is asked, the first that is configured: the table if there is
    one, else the peer index. Its vector, if present, is searched for; if
    it is absent the lookup raises, and after an absent table answer the
    peer index is not asked. Without any strategy the lookup raises. *)
Theorem ooi_first_configured_strategy_only self q_id k incl :
  ids_d self !! q_id = None ->
  (forall table, ooi_dynamo_table self = Some table ->
     table q_id = inr None ->
     nn_from_id self q_id k incl =
       ([EvDynamoGet (path_tar self) q_id],
        inl (Exception_
               "Q is ooi and doesnt exist in the ooi dynamo table"))) /\
  (forall table v, ooi_dynamo_table self = Some table ->
     table q_id = inr (Some v) ->
     nn_from_id self q_id k incl =
       (neighbors <- (emit (EvDynamoGet (path_tar self) q_id) ;;;
                      nn_from_emb self v k incl) ;;
        ret (filter (fun n => Rec.id_ n <> q_id) neighbors))) /\
  (forall peer t, ooi_dynamo_table self = None -> ooi_ann self = Some peer ->
     get_vector peer q_id = (t, inr None) ->
     nn_from_id self q_id k incl =
       (t, inl (Exception_ "Q is ooi and doesnt exist in the ooi ann"))) /\
  (forall peer t v, ooi_dynamo_table self = None ->
     ooi_ann self = Some peer ->
     get_vector peer q_id = (t, inr (Some v)) ->
     nn_from_id self q_id k incl =
       (neighbors <- ((t, inr tt) ;;; nn_from_emb self v k incl) ;;
        ret (filter (fun n => Rec.id_ n <> q_id) neighbors))) /\
  (ooi_dynamo_table self = None -> ooi_ann self = None ->
     nn_from_id self q_id k incl =
       ([], inl (Exception_ "Q is ooi and no ooi dynamo table was set"))).
Proof.
  intros Hout. unfold nn_from_id. rewrite Hout.
  split; [| split; [| split; [| split]]].
  - intros table -> Hq. unfold get_dynamo_emb. by rewrite Hq.
  - intros table v -> Hq. unfold get_dynamo_emb. by rewrite Hq.
  - intros peer t -> -> Hv. rewrite Hv. simpl. by rewrite app_nil_r.
  - intros peer t v -> -> Hv. by rewrite Hv.
  - by intros -> ->.
Qed.

Lemma ooi_first_configured_strategy_only_witness :
  nn_from_id Examples.tabled "A" 1 false =
    ([EvDynamoGet "tabled" "A"],
     inl (Exception_ "Q is ooi and doesnt exist in the ooi dynamo table")) /\
  nn_from_id Examples.orphan "A" 1 false =
    ([], inl (Exception_ "Q is ooi and no ooi dynamo table was set")).
Proof.
  split.
  - apply (proj1 (ooi_first_configured_strategy_only
                    Examples.tabled "A" 1 false eq_refl)
             (fun _ => inr None)); reflexivity.
  - apply (proj2 (proj2 (proj2 (proj2 (ooi_first_configured_strategy_only
                    Examples.orphan "A" 1 false eq_refl)))));
      reflexivity.
Defined.

Lemma query_of_set_fallback self parent payload k :
  query_of (set_fallback self parent) payload k = query_of self payload k.
Proof. reflexivity. Qed.

(** C1, as stated, fails: [A] is absent from the index, no OOI strategy
    resolves it, a fallback parent is set and would answer the query, and
    the query raises all the same. *)
Lemma ooi_failure_despite_fallback :
  ids_d Examples.orphan !! "A"%string = None /\
  fallback_parent Examples.orphan = Some Examples.shop /\
  outcome (nn_from_payload Examples.shop (Examples.by_id "A" 2)) =
    inr [Rec.mk "B" None; Rec.mk "C" None] /\
  nn_from_payload Examples.orphan (Examples.by_id "A" 2) =
    ([], inl (Exception_ "Q is ooi and no ooi dynamo table was set")).
Proof. by repeat split. Qed.

(** C1, amended. When the identifier is absent from the index and the
    lookup by identifier raises, the whole query raises the same exception,
    with or without a fallback parent; the fallback parent is not asked. *)
Theorem ooi_failure_fails_query self payload q_id k e :
  p_id payload = Some q_id -> p_k payload = Some k ->
  ids_d self !! q_id = None ->
  outcome (nn_from_id self q_id k (include_distances_of payload)) = inl e ->
  nn_from_payload self payload =
    (trace (nn_from_id self q_id k (include_distances_of payload)), inl e) /\
  forall parent,
    nn_from_payload (set_fallback self parent) payload =
      (trace (nn_from_id self q_id k (include_distances_of payload)), inl e).
Proof.
  intros Hid Hk _ He.
  assert (H : forall r, query_of r payload k = query_of self payload k ->
            nn_from_payload r payload =
            (trace (nn_from_id self q_id k (include_distances_of payload)),
             inl e)).
  { intros r Hr. rewrite nn_from_payload_unfold. unfold payload_k.
    rewrite Hk, bind_lift_inr, Hr. unfold query_of. rewrite Hid.
    apply bind_inl. rewrite <- He. apply eta. }
  split; [by apply H |]. intros parent. apply H, query_of_set_fallback.
Qed.

Lemma ooi_failure_fails_query_witness :
  nn_from_payload Examples.orphan (Examples.by_id "A" 2) =
    ([], inl (Exception_ "Q is ooi and no ooi dynamo table was set")) /\
  nn_from_payload (set_fallback Examples.tabled Examples.shop)
    (Examples.by_id "A" 2) =
    ([EvDynamoGet "tabled" "A"],
     inl (Exception_ "Q is ooi and doesnt exist in the ooi dynamo table")).
Proof.
  split.
  - apply (proj1 (ooi_failure_fails_query Examples.orphan
                    (Examples.by_id "A" 2) "A" 2
                    (Exception_ "Q is ooi and no ooi dynamo table was set")
                    eq_refl eq_refl eq_refl eq_refl)).
  - apply (proj2 (ooi_failure_fails_query Examples.tabled
                    (Examples.by_id "A" 2) "A" 2
                    (Exception_
                       "Q is ooi and doesnt exist in the ooi dynamo table")
                    eq_refl eq_refl eq_refl eq_refl) Examples.shop).
Defined.

(** ** Staleness *)

Lemma no_reload_bind {A B} (m : M A) (f : A -> M B) :
  no_reload (trace m) -> (forall a, no_reload (trace (f a))) ->
  no_reload (trace (bind m f)).
Proof.
  intros Hm Hf. rewrite trace_bind. apply Forall_app. split; [done |].
  destruct (outcome m); [constructor | apply Hf].
Qed.

Lemma no_reload_lift {A} (r : exn + A) : no_reload (trace (lift r)).
Proof. constructor. Qed.

Lemma no_reload_ret {A} (a : A) : no_reload (trace (ret a)).
Proof. constructor. Qed.

Lemma no_reload_raise {A} (e : exn) : no_reload (trace (@raise A e)).
Proof. constructor. Qed.

Lemma no_reload_emit ev :
  is_reload_event ev = false -> no_reload (trace (emit ev)).
Proof. intros H. by repeat constructor. Qed.

Create HintDb quiet.
#[local] Hint Resolve no_reload_lift no_reload_ret no_reload_raise : quiet.
#[local] Hint Extern 1 (no_reload (trace (emit _))) =>
  apply no_reload_emit; reflexivity : quiet.
#[local] Hint Extern 2 (no_reload (trace (bind _ _))) =>
  apply no_reload_bind; [| intros] : quiet.

Lemma no_reload_recs_via_ann_out self ann_out incl :
  no_reload (trace (recs_via_ann_out self ann_out incl)).
Proof. unfold recs_via_ann_out. auto with quiet. Qed.

#[local] Hint Resolve no_reload_recs_via_ann_out : quiet.

Lemma no_reload_nn_from_emb self q_emb k incl :
  no_reload (trace (nn_from_emb self q_emb k incl)).
Proof. unfold nn_from_emb. auto 6 with quiet. Qed.

Lemma no_reload_get_vector self q_id :
  no_reload (trace (get_vector self q_id)).
Proof.
  induction self as [self _ IHo] using ANNResource_chain_ind.
  rewrite get_vector_unfold. unfold get_dynamo_emb.
  destruct (ids_d self !! q_id); [auto 6 with quiet |].
  destruct (ooi_dynamo_table self); [auto 6 with quiet |].
  destruct (ooi_ann self) as [peer |]; [by apply IHo | auto with quiet].
Qed.

#[local] Hint Resolve no_reload_nn_from_emb no_reload_get_vector : quiet.

Lemma no_reload_nn_from_id self q_id k incl :
  no_reload (trace (nn_from_id self q_id k incl)).
Proof.
  unfold nn_from_id, get_dynamo_emb. apply no_reload_bind; [| auto with quiet].
  destruct (ids_d self !! q_id); [auto 6 with quiet |].
  destruct (ooi_dynamo_table self).
  - apply no_reload_bind; [auto 6 with quiet |].
    intros [v |]; auto with quiet.
  - destruct (ooi_ann self); [| auto with quiet].
    apply no_reload_bind; [auto with quiet |].
    intros [v |]; auto with quiet.
Qed.

#[local] Hint Resolve no_reload_nn_from_id : quiet.

Lemma no_reload_query_of self payload k :
  no_reload (trace (query_of self payload k)).
Proof.
  unfold query_of. destruct (p_id payload), (p_emb payload); auto with quiet.
Qed.

#[local] Hint Resolve no_reload_query_of : quiet.

Lemma no_reload_nn_from_payload self :
  forall payload, no_reload (trace (nn_from_payload self payload)).
Proof.
  induction self as [self IHf _] using ANNResource_chain_ind.
  intros payload. rewrite nn_from_payload_unfold.
  apply no_reload_bind; [auto with quiet | intros k].
  apply no_reload_bind; [auto with quiet | intros neighbors].
  apply no_reload_bind.
  - destruct (bool_decide _); [| auto with quiet].
    destruct (fallback_parent self) as [parent |]; [| auto with quiet].
    apply no_reload_bind; [by apply IHf | auto with quiet].
  - intros ns. destruct (thresh_score_of payload); auto 6 with quiet.
Qed.

(** C7, as stated, fails: a search is served and the trace of the query
    holds the call of the engine only, no staleness check comes first. *)
Lemma search_without_staleness_check :
  nn_from_payload Examples.shop (Examples.by_id "A" 2) =
    ([EvNnsByItem "shop" 0 3 false],
     inr [Rec.mk "B" None; Rec.mk "C" None]) /\
  checked_before_search
    (trace (nn_from_payload Examples.shop (Examples.by_id "A" 2))) = false.
Proof. by split. Qed.

(** C7, amended. Neither the resolver nor the POST handler consults the
    staleness check or reloads. The check belongs to [maybe_reload], which a
    caller has to invoke: it consults the check once and loads with
    [reload=True] exactly when the local copy is stale. *)
Theorem staleness_checked_by_maybe_reload_only self :
  (forall payload, no_reload (trace (nn_from_payload self payload))) /\
  (forall req, no_reload (fst (on_post self req))) /\
  (forall io,
     maybe_reload io self =
       if io_needs_reload (remote_mtime io (path_tar self))
            (ts_read_utc io (path_tar self))
       then ([EvNeedsReload (path_tar self); EvLoad (path_tar self) true],
             outcome (load io self None true))
       else ([EvNeedsReload (path_tar self)], inr self)).
Proof.
  split; [apply no_reload_nn_from_payload | split].
  - intros req. unfold on_post.
    match goal with |- context [bind ?m ?f] =>
      assert (Hq : no_reload (trace (bind m f)));
        [| destruct (bind m f) as [t [e | b]]] end.
    + apply no_reload_bind; [auto with quiet | intros p].
      apply no_reload_bind; [apply no_reload_nn_from_payload |].
      auto with quiet.
    + simpl. apply Forall_app. split; [done | by repeat constructor].
    + done.
  - intros io. unfold maybe_reload, needs_reload. simpl.
    destruct (io_needs_reload _ _); [| done].
    unfold load. simpl. by destruct (load_via_tar io (path_tar self) true).
Qed.

(** ** Self-match exclusion *)

Lemma filter_Forall_inv {A} (P Q : A -> Prop) `{!forall x, Decision (P x)}
    (l : list A) :
  Forall Q l -> Forall Q (filter P l).
Proof.
  rewrite !Forall_forall. intros HQ x Hx.
  apply list_elem_of_filter in Hx. apply HQ, Hx.
Qed.

Lemma nn_from_id_no_self self q_id k incl ns :
  outcome (nn_from_id self q_id k incl) = inr ns ->
  Forall (fun n => Rec.id_ n <> q_id) ns.
Proof.
  unfold nn_from_id. intros H.
  apply outcome_bind_inr in H as (a & _ & [= <-]).
  apply Forall_forall. intros n Hn. by apply list_elem_of_filter in Hn as [? _].
Qed.

Lemma nn_from_payload_no_self self :
  forall payload q_id ns,
    p_id payload = Some q_id ->
    outcome (nn_from_payload self payload) = inr ns ->
    Forall (fun n => Rec.id_ n <> q_id) ns.
Proof.
  induction self as [self IHf _] using ANNResource_chain_ind.
  intros payload q_id ns Hid H. rewrite nn_from_payload_unfold in H.
  apply outcome_bind_inr in H as (k & _ & H1).
  apply outcome_bind_inr in H1 as (prim & Hprim & H2).
  apply outcome_bind_inr in H2 as (all & Hall & H3).
  apply outcome_bind_inr in H3 as (kept & Hkept & [= <-]).
  apply slice_to_Forall.
  assert (Hp : Forall (fun n => Rec.id_ n <> q_id) prim).
  { unfold query_of in Hprim. rewrite Hid in Hprim.
    by apply nn_from_id_no_self in Hprim. }
  assert (Ha : Forall (fun n => Rec.id_ n <> q_id) all).
  { destruct (bool_decide _); [| by injection Hall as <-].
    destruct (fallback_parent self) as [parent |];
      [| by injection Hall as <-].
    apply outcome_bind_inr in Hall as (fb & Hfb & [= <-]).
    apply Forall_app. split; [done |].
    by apply (IHf parent eq_refl _ q_id) in Hfb. }
  destruct (thresh_score_of payload) as [t |]; [| by injection Hkept as <-].
  by apply (thresh_filter_Forall _ t all).
Qed.

(** C4. For a query by an identifier of the index, the engine is asked for
    [k + 1] results by item, once, and neither the search by identifier nor
    the whole resolution, fallback included, returns a neighbour with the
    identifier of the query. This holds for every [k], so for [k >= 1]. *)
Theorem self_match_excluded self payload q_id q_ind k :
  p_id payload = Some q_id -> p_k payload = Some k ->
  ids_d self !! q_id = Some q_ind ->
  trace (nn_from_id self q_id k (include_distances_of payload)) =
    [EvNnsByItem (path_tar self) q_ind (k + 1)
       (include_distances_of payload)] /\
  (exists t, trace (nn_from_payload self payload) =
     EvNnsByItem (path_tar self) q_ind (k + 1)
       (include_distances_of payload) :: t) /\
  (forall ns,
     outcome (nn_from_id self q_id k (include_distances_of payload)) = inr ns ->
     Forall (fun n => Rec.id_ n <> q_id) ns) /\
  (forall ns, outcome (nn_from_payload self payload) = inr ns ->
     Forall (fun n => Rec.id_ n <> q_id) ns).
Proof.
  intros Hid Hk Hind.
  assert (Ht : trace (nn_from_id self q_id k (include_distances_of payload)) =
    [EvNnsByItem (path_tar self) q_ind (k + 1)
       (include_distances_of payload)]).
  { unfold nn_from_id, recs_via_ann_out. rewrite Hind.
    destruct (get_nns_by_item _ _ _ _) as [e | out]; [done |]. simpl.
    by destruct (ids_of_inds _ _). }
  split; [exact Ht | split; [| split]].
  - rewrite nn_from_payload_unfold, trace_bind. unfold payload_k.
    rewrite Hk. simpl. rewrite trace_bind. unfold query_of at 1.
    rewrite Hid, Ht. simpl. by eexists.
  - intros ns. apply nn_from_id_no_self.
  - intros ns. by apply nn_from_payload_no_self.
Qed.

Lemma self_match_excluded_witness :
  trace (nn_from_id Examples.shop "A" 2 false) =
    [EvNnsByItem "shop" 0 3 false] /\
  outcome (nn_from_payload Examples.shop (Examples.by_id "A" 2)) =
    inr [Rec.mk "B" None; Rec.mk "C" None] /\
  Forall (fun n => Rec.id_ n <> "A"%string)
    [Rec.mk "B" None; Rec.mk "C" None].
Proof.
  pose proof (self_match_excluded Examples.shop (Examples.by_id "A" 2)
                "A" 0 2 eq_refl eq_refl eq_refl) as (Ht & _ & _ & Hn).
  split; [exact Ht | split; [reflexivity | exact (Hn _ eq_refl)]].
Defined.

(** ** Fallback backfill *)

Lemma nn_from_payload_length self payload k ns :
  p_k payload = Some k -> 0 <= k ->
  outcome (nn_from_payload self payload) = inr ns ->
  Z.of_nat (length ns) <= k.
Proof.
  intros Hk Hpos H. rewrite nn_from_payload_unfold in H.
  unfold payload_k in H. rewrite Hk, bind_lift_inr in H.
  apply outcome_bind_inr in H as (prim & _ & H1).
  apply outcome_bind_inr in H1 as (all & _ & H2).
  apply outcome_bind_inr in H2 as (kept & _ & [= <-]).
  by apply slice_to_length.
Qed.

(** C5, as stated, fails. [shop] has the fallback parent [archive]; asked
    for five neighbours of [A] without threshold, its own search returns
    three. [archive] is asked for the deficit of two, does not hold [A],
    has no OOI strategy and raises; nothing catches the exception, so the
    query has no result at all, let alone one of [min k (own + fallback)]
    neighbours. *)
Lemma short_own_search_with_raising_parent :
  fallback_parent Examples.shop_with_archive = Some Examples.archive /\
  thresh_score_of (Examples.by_id "A" 5) = None /\
  query_of Examples.shop_with_archive (Examples.by_id "A" 5) 5 =
    ([EvNnsByItem "shop" 0 6 false],
     inr [Rec.mk "B" None; Rec.mk "C" None; Rec.mk "D" None]) /\
  Z.of_nat (length [Rec.mk "B" None; Rec.mk "C" None; Rec.mk "D" None]) < 5 /\
  nn_from_payload Examples.archive (with_k (Examples.by_id "A" 5) 2) =
    ([], inl (Exception_ "Q is ooi and no ooi dynamo table was set")) /\
  nn_from_payload Examples.shop_with_archive (Examples.by_id "A" 5) =
    ([EvNnsByItem "shop" 0 6 false],
     inl (Exception_ "Q is ooi and no ooi dynamo table was set")).
Proof. by repeat split. Qed.

(** C5, amended. Without a threshold, when the own search returns fewer
    than [k] neighbours, a fallback parent is set and the resolution of the
    parent returns, the parent is asked the same
    query with [k] replaced by the deficit; what it returns is appended
    after the own neighbours, whatever the scores, and is never longer than
    the deficit, so the result has [min k (own + fallback)] neighbours and at
    most [k]. The count is stated for the number of neighbours the parent
    returns, and for any number [available] of which the parent returns
    the first [min deficit available]. *)
Theorem fallback_backfill self parent payload k t1 prim t2 fb :
  fallback_parent self = Some parent ->
  p_k payload = Some k ->
  thresh_score_of payload = None ->
  query_of self payload k = (t1, inr prim) ->
  Z.of_nat (length prim) < k ->
  nn_from_payload parent (with_k payload (k - Z.of_nat (length prim))) =
    (t2, inr fb) ->
  nn_from_payload self payload = (t1 ++ t2, inr (prim ++ fb)) /\
  Z.of_nat (length fb) <= k - Z.of_nat (length prim) /\
  Z.of_nat (length (prim ++ fb)) =
    Z.min k (Z.of_nat (length prim) + Z.of_nat (length fb)) /\
  (forall available,
     Z.of_nat (length fb) =
       Z.min (k - Z.of_nat (length prim)) available ->
     Z.of_nat (length (prim ++ fb)) =
       Z.min k (Z.of_nat (length prim) + available)) /\
  Z.of_nat (length (prim ++ fb)) <= k.
Proof.
  intros Hparent Hk Hthresh Hq Hshort Hfb.
  assert (Hlen : Z.of_nat (length fb) <= k - Z.of_nat (length prim)).
  { apply (nn_from_payload_length parent
             (with_k payload (k - Z.of_nat (length prim)))); [done | lia |].
    by rewrite Hfb. }
  assert (Htot : Z.of_nat (length (prim ++ fb)) <= k).
  { rewrite length_app. lia. }
  split; [| split; [done | split; [rewrite length_app; lia | split]]];
    [| intros available Hav; rewrite length_app; lia | done].
  rewrite nn_from_payload_unfold. unfold payload_k.
  rewrite Hk, bind_lift_inr, Hq, Hthresh, Hparent. cbn [bind].
  rewrite bool_decide_true by done. rewrite Hfb.
  cbn [bind ret fst snd]. rewrite slice_to_all by done.
  by rewrite !app_nil_r.
Qed.

Lemma fallback_backfill_witness :
  nn_from_payload Examples.shop_with_archive (Examples.by_emb [1%Q] 5) =
    ([EvNnsByVector "shop" [1%Q] 5 false;
      EvNnsByVector "archive" [1%Q] 3 false],
     inr [Rec.mk "B" None; Rec.mk "C" None;
          Rec.mk "E" None; Rec.mk "F" None; Rec.mk "G" None]) /\
  Z.of_nat (length [Rec.mk "B" None; Rec.mk "C" None;
                    Rec.mk "E" None; Rec.mk "F" None; Rec.mk "G" None]) =
    Z.min 5 (2 + 4).
Proof.
  pose proof (fallback_backfill Examples.shop_with_archive Examples.archive
                (Examples.by_emb [1%Q] 5) 5
                [EvNnsByVector "shop" [1%Q] 5 false]
                [Rec.mk "B" None; Rec.mk "C" None]
                [EvNnsByVector "archive" [1%Q] 3 false]
                [Rec.mk "E" None; Rec.mk "F" None; Rec.mk "G" None]
                eq_refl eq_refl eq_refl eq_refl eq_refl eq_refl)
    as (Hres & _ & _ & Hav & _).
  split; [exact Hres | exact (Hav 4 eq_refl)].
Defined.

(** ** The score threshold along the fallback chain *)

Lemma zip_recs_has_dist l ds :
  Forall (fun n => is_Some (Rec.dist n)) (zip_recs l (map Some ds)).
Proof.
  revert ds. induction l as [| id l IH]; intros [| d ds]; simpl;
    constructor; [by eexists | apply IH].
Qed.

Lemma recs_via_ann_out_has_dist self ann_out ns :
  outcome (recs_via_ann_out self ann_out true) = inr ns ->
  Forall (fun n => is_Some (Rec.dist n)) ns.
Proof.
  unfold recs_via_ann_out. intros H.
  apply outcome_bind_inr in H as (l & _ & [= <-]). apply zip_recs_has_dist.
Qed.

Lemma nn_from_emb_has_dist self q_emb k ns :
  outcome (nn_from_emb self q_emb k true) = inr ns ->
  Forall (fun n => is_Some (Rec.dist n)) ns.
Proof.
  unfold nn_from_emb. intros H.
  apply outcome_bind_inr in H as (? & _ & H1).
  apply outcome_bind_inr in H1 as (out & _ & H2).
  by apply recs_via_ann_out_has_dist in H2.
Qed.

Lemma nn_from_id_has_dist self q_id k ns :
  outcome (nn_from_id self q_id k true) = inr ns ->
  Forall (fun n => is_Some (Rec.dist n)) ns.
Proof.
  unfold nn_from_id. intros H.
  apply outcome_bind_inr in H as (found & Hfound & [= <-]).
  apply filter_Forall_inv.
  destruct (ids_d self !! q_id).
  - apply outcome_bind_inr in Hfound as (? & _ & H1).
    apply outcome_bind_inr in H1 as (out & _ & H2).
    by apply recs_via_ann_out_has_dist in H2.
  - destruct (ooi_dynamo_table self).
    + apply outcome_bind_inr in Hfound as ([v |] & _ & H1); [| done].
      by apply nn_from_emb_has_dist in H1.
    + destruct (ooi_ann self); [| done].
      apply outcome_bind_inr in Hfound as ([v |] & _ & H1); [| done].
      by apply nn_from_emb_has_dist in H1.
Qed.

Lemma thresh_includes_distances payload t :
  thresh_score_of payload = Some t -> include_distances_of payload = true.
Proof.
  intros H. unfold include_distances_of. rewrite H.
  rewrite bool_decide_true by by eexists. apply orb_true_r.
Qed.

Lemma query_of_has_dist self payload k ns :
  include_distances_of payload = true ->
  outcome (query_of self payload k) = inr ns ->
  Forall (fun n => is_Some (Rec.dist n)) ns.
Proof.
  unfold query_of. intros ->.
  destruct (p_id payload); [apply nn_from_id_has_dist |].
  destruct (p_emb payload); [apply nn_from_emb_has_dist | done].
Qed.

Lemma thresh_filter_length t l l' :
  thresh_filter t l = inr l' -> (length l' <= length l)%nat.
Proof.
  revert l'. induction l as [| n l IH]; simpl; intros l' H.
  - by injection H as <-.
  - destruct (Rec.score n); [| done].
    destruct (thresh_filter t l) as [| rest]; [done |].
    injection H as <-. specialize (IH rest eq_refl).
    destruct (Qltb t q); simpl; lia.
Qed.

Lemma nn_from_payload_passes self payload t ns :
  thresh_score_of payload = Some t ->
  outcome (nn_from_payload self payload) = inr ns ->
  Forall (passes t) ns.
Proof.
  intros Ht H. rewrite nn_from_payload_unfold in H.
  apply outcome_bind_inr in H as (k & _ & H1).
  apply outcome_bind_inr in H1 as (prim & _ & H2).
  apply outcome_bind_inr in H2 as (all & _ & H3).
  apply outcome_bind_inr in H3 as (kept & Hkept & [= <-]).
  rewrite Ht in Hkept. apply slice_to_Forall.
  by apply thresh_filter_passes in Hkept.
Qed.

(** *** When one filter after the backfill gives the same result *)

Lemma backfill_unfold self payload k :
  backfill self payload k =
  (neighbors <- query_of self payload k ;;
   if bool_decide (Z.of_nat (length neighbors) < k) then
     match fallback_parent self with
     | Some parent =>
         let deficit := k - Z.of_nat (length neighbors) in
         neighbors_fallback <- backfill parent payload deficit ;;
         ret (neighbors ++ slice_to neighbors_fallback deficit)
     | None => ret neighbors
     end
   else ret neighbors).
Proof. by destruct self. Qed.

Lemma within_request_unfold self payload k :
  within_request self payload k =
  match outcome (query_of self payload k) with
  | inl _ => true
  | inr neighbors =>
      bool_decide (Z.of_nat (length neighbors) <= k)
      && fallbacks_within_request self payload k
  end.
Proof.
  unfold fallbacks_within_request.
  destruct self; simpl; by destruct (outcome _).
Qed.

Lemma within_request_fallbacks self payload k :
  within_request self payload k = true ->
  fallbacks_within_request self payload k = true.
Proof.
  intros H. rewrite within_request_unfold in H.
  destruct (outcome (query_of self payload k)) eqn:E.
  - unfold fallbacks_within_request. by rewrite E.
  - by apply andb_true_iff in H as [_ ?].
Qed.

Lemma with_k_id payload k : p_k payload = Some k -> with_k payload k = payload.
Proof. destruct payload. simpl. by intros ->. Qed.

Lemma backfill_with_k self :
  forall payload d k, backfill self (with_k payload d) k = backfill self payload k.
Proof.
  induction self as [self IHf _] using ANNResource_chain_ind.
  intros payload d k. rewrite !backfill_unfold.
  change (query_of self (with_k payload d) k) with (query_of self payload k).
  apply bind_ext; intros neighbors.
  destruct (bool_decide _); [| done].
  destruct (fallback_parent self) as [parent |]; [| done].
  cbv zeta. by rewrite (IHf parent eq_refl).
Qed.

Lemma backfill_has_dist self :
  forall payload k ns,
    include_distances_of payload = true ->
    outcome (backfill self payload k) = inr ns ->
    Forall (fun n => is_Some (Rec.dist n)) ns.
Proof.
  induction self as [self IHf _] using ANNResource_chain_ind.
  intros payload k ns Hincl H. rewrite backfill_unfold in H.
  apply outcome_bind_inr in H as (prim & Hprim & H1).
  apply (query_of_has_dist _ _ _ _ Hincl) in Hprim.
  destruct (bool_decide _); [| by injection H1 as <-].
  destruct (fallback_parent self) as [parent |]; [| by injection H1 as <-].
  cbv zeta in H1. apply outcome_bind_inr in H1 as (fb & Hfb & [= <-]).
  apply Forall_app. split; [done |]. apply slice_to_Forall.
  by apply (IHf parent eq_refl payload _ fb Hincl Hfb).
Qed.

Lemma backfill_length self payload k ns :
  within_request self payload k = true -> 0 <= k ->
  outcome (backfill self payload k) = inr ns ->
  Z.of_nat (length ns) <= k.
Proof.
  intros Hw Hk H. rewrite within_request_unfold in Hw.
  rewrite backfill_unfold in H.
  apply outcome_bind_inr in H as (prim & Hprim & H1). rewrite Hprim in Hw.
  apply andb_true_iff in Hw as [Hown%bool_decide_eq_true _].
  destruct (bool_decide _) eqn:Hshort; [| by injection H1 as <-].
  apply bool_decide_eq_true in Hshort.
  destruct (fallback_parent self) as [parent |]; [| by injection H1 as <-].
  cbv zeta in H1. apply outcome_bind_inr in H1 as (fb & _ & [= <-]).
  rewrite length_app.
  pose proof (slice_to_length fb (k - Z.of_nat (length prim))). lia.
Qed.

(** If every fallback level that is reached returns no more than it was
    asked for, filtering at every level and filtering once after the
    backfill give the same computation. *)
Lemma nn_from_payload_thresh_once_eq self :
  forall payload k t,
    thresh_score_of payload = Some t ->
    fallbacks_within_request self payload k = true ->
    nn_from_payload self (with_k payload k) =
    nn_from_payload_thresh_once self (with_k payload k).
Proof.
  induction self as [self IHf _] using ANNResource_chain_ind.
  intros payload k t Ht Hw.
  rewrite nn_from_payload_unfold. unfold nn_from_payload_thresh_once.
  change (payload_k (with_k payload k)) with (@inr exn Z k).
  rewrite !bind_lift_inr, backfill_with_k, backfill_unfold, bind_assoc.
  change (query_of self (with_k payload k) k) with (query_of self payload k).
  change (thresh_score_of (with_k payload k)) with (thresh_score_of payload).
  rewrite Ht. apply bind_ext_on. intros prim Hq.
  unfold fallbacks_within_request in Hw. rewrite Hq in Hw.
  destruct (bool_decide (Z.of_nat (length prim) < k)) eqn:Hshort;
    [| reflexivity].
  apply bool_decide_eq_true in Hshort.
  destruct (fallback_parent self) as [parent |] eqn:Hparent; [| reflexivity].
  cbv zeta. set (d := k - Z.of_nat (length prim)) in *.
  change (with_k (with_k payload k) d) with (with_k payload d).
  assert (Hwp : fallbacks_within_request parent payload d = true).
  { by apply within_request_fallbacks. }
  rewrite (IHf parent eq_refl payload d t Ht Hwp).
  unfold nn_from_payload_thresh_once.
  change (payload_k (with_k payload d)) with (@inr exn Z d).
  change (thresh_score_of (with_k payload d)) with (thresh_score_of payload).
  rewrite bind_lift_inr, backfill_with_k, Ht, !bind_assoc.
  apply bind_ext_on. intros ufb Hb.
  assert (Hincl := thresh_includes_distances payload t Ht).
  assert (Hlen : Z.of_nat (length ufb) <= d).
  { apply (backfill_length parent payload d); [done | lia | done]. }
  destruct (thresh_filter_total t ufb) as [fb Hfb].
  { by apply (backfill_has_dist parent payload d). }
  destruct (thresh_filter_total t prim) as [prim' Hprim'].
  { by apply (query_of_has_dist self payload k). }
  pose proof (thresh_filter_length t ufb fb Hfb) as Hfblen.
  rewrite Hfb, !bind_lift_inr, !bind_ret.
  rewrite (slice_to_all fb d) by lia. rewrite (slice_to_all ufb d) by lia.
  rewrite (thresh_filter_app t prim fb prim' fb Hprim'
             (thresh_filter_id t fb (thresh_filter_passes t ufb fb Hfb))).
  by rewrite (thresh_filter_app t prim ufb prim' fb Hprim' Hfb).
Qed.

(** C3, as stated, fails. [front] finds no neighbour of its own and asks
    [back] for one; [back] ranks [X] (score 0.1) before [Y] (score 0.9).
    The resolver returns [Y], because [back] has filtered its own list
    before truncating it to the deficit; a threshold applied once, after
    the backfill, returns nothing. The filter of the fallback level also
    shows with an engine that ranks by distance: asked for three
    neighbours above 0.8, [archive] hands back two of the three it found. *)
Lemma thresh_applied_at_fallback_level :
  thresh_score_of Examples.above_half = Some (1 # 2)%Q /\
  fallback_parent Examples.front = Some Examples.back /\
  outcome (nn_from_payload Examples.back Examples.above_half) =
    inr [Rec.mk "Y" (Some (2 # 10)%Q)] /\
  outcome (nn_from_payload Examples.front Examples.above_half) =
    inr [Rec.mk "Y" (Some (2 # 10)%Q)] /\
  outcome (nn_from_payload_thresh_once Examples.front Examples.above_half) =
    inr [] /\
  outcome (backfill Examples.archive Examples.above_08 3) =
    inr [Rec.mk "E" (Some (1 # 10)%Q); Rec.mk "F" (Some (3 # 10)%Q);
         Rec.mk "G" (Some (5 # 10)%Q)] /\
  outcome (nn_from_payload Examples.archive (with_k Examples.above_08 3)) =
    inr [Rec.mk "E" (Some (1 # 10)%Q); Rec.mk "F" (Some (3 # 10)%Q)].
Proof. by repeat split. Qed.

(** C3, amended. A requested threshold is applied at every level of the
    fallback recursion. Every list a resolver returns, the one of a
    fallback parent included, holds only neighbours above the threshold:
    the parent filters its own list before truncating it to the deficit.
    The caller then filters its own neighbours together with this already
    filtered list, which the second filter leaves as it is. The result is
    that of one filter after the backfill as long as no fallback level
    returns, from its own search, more neighbours than it was asked for. *)
Theorem thresh_applied_at_every_level self payload k t :
  p_k payload = Some k ->
  thresh_score_of payload = Some t ->
  (forall ns, outcome (nn_from_payload self payload) = inr ns ->
     Forall (passes t) ns) /\
  (forall parent prim fb,
     fallback_parent self = Some parent ->
     outcome (query_of self payload k) = inr prim ->
     Z.of_nat (length prim) < k ->
     outcome (nn_from_payload parent
                (with_k payload (k - Z.of_nat (length prim)))) = inr fb ->
     Forall (passes t) fb /\
     thresh_filter t fb = inr fb /\
     exists prim',
       thresh_filter t prim = inr prim' /\
       outcome (nn_from_payload self payload) = inr (prim' ++ fb)) /\
  (fallbacks_within_request self payload k = true ->
   nn_from_payload self payload = nn_from_payload_thresh_once self payload).
Proof.
  intros Hk Ht. split; [intros ns; by apply nn_from_payload_passes |].
  split.
  2:{ intros Hw. rewrite <- (with_k_id payload k Hk).
      by apply (nn_from_payload_thresh_once_eq self payload k t). }
  intros parent prim fb Hparent Hprim Hshort Hfb.
  assert (Hpass : Forall (passes t) fb).
  { by apply (nn_from_payload_passes parent
                (with_k payload (k - Z.of_nat (length prim)))). }
  assert (Hlen : Z.of_nat (length fb) <= k - Z.of_nat (length prim)).
  { by apply (nn_from_payload_length parent
                (with_k payload (k - Z.of_nat (length prim)))); [| lia |]. }
  destruct (thresh_filter_total t prim) as [prim' Hprim'].
  { apply (query_of_has_dist self payload k); [| done].
    by apply (thresh_includes_distances payload t). }
  split; [done | split; [by apply thresh_filter_id |]].
  exists prim'. split; [done |].
  rewrite nn_from_payload_unfold. unfold payload_k.
  rewrite Hk, bind_lift_inr.
  rewrite (eta (query_of self payload k)), Hprim, Ht, Hparent. cbn [bind].
  rewrite bool_decide_true by done.
  rewrite (eta (nn_from_payload parent _)), Hfb. cbn [bind ret lift fst snd].
  rewrite (thresh_filter_app t prim fb prim' fb Hprim'
             (thresh_filter_id t fb Hpass)).
  cbn [outcome snd]. f_equal. apply slice_to_all.
  pose proof (thresh_filter_length t prim prim' Hprim').
  rewrite length_app. lia.
Qed.

Lemma thresh_applied_at_every_level_witness :
  Forall (passes (1 # 2)) [Rec.mk "Y" (Some (2 # 10)%Q)] /\
  (exists prim',
     thresh_filter (1 # 2) [] = inr prim' /\
     outcome (nn_from_payload Examples.front Examples.above_half) =
       inr (prim' ++ [Rec.mk "Y" (Some (2 # 10)%Q)])) /\
  nn_from_payload Examples.shop_with_archive Examples.above_08 =
    nn_from_payload_thresh_once Examples.shop_with_archive Examples.above_08.
Proof.
  pose proof (proj1 (proj2 (thresh_applied_at_every_level Examples.front
                Examples.above_half 1 (1 # 2) eq_refl eq_refl))
              Examples.back [] [Rec.mk "Y" (Some (2 # 10)%Q)]
              eq_refl eq_refl eq_refl eq_refl) as (Hpass & _ & Hex).
  split; [exact Hpass | split; [exact Hex |]].
  exact (proj2 (proj2 (thresh_applied_at_every_level
                  Examples.shop_with_archive Examples.above_08 5 (8 # 10)
                  eq_refl eq_refl)) eq_refl).
Defined.

(** The archive is asked for three neighbours, finds [E], [F] and [G] and
    returns the two above 0.8; the caller keeps [B] of its own two. *)
Example above_08_run :
  nn_from_payload Examples.shop_with_archive Examples.above_08 =
    ([EvNnsByVector "shop" [1%Q] 5 true;
      EvNnsByVector "archive" [1%Q] 3 true],
     inr [Rec.mk "B" (Some (2 # 10)%Q); Rec.mk "E" (Some (1 # 10)%Q);
          Rec.mk "F" (Some (3 # 10)%Q)]) /\
  outcome (nn_from_payload Examples.archive (with_k Examples.above_08 3)) =
    inr [Rec.mk "E" (Some (1 # 10)%Q); Rec.mk "F" (Some (3 # 10)%Q)].
Proof. by split. Qed.

(** * Further properties of the resource *)

(** ** From engine output to neighbours *)

Lemma ids_of_inds_Forall2 l inds names :
  ids_of_inds l inds = inr names <->
  Forall2 (fun ind name => l !! ind = Some name) inds names.
Proof.
  revert names. induction inds as [| ind inds IH]; intros names; simpl.
  - split; [intros [= <-]; constructor | by inversion 1].
  - destruct (l !! ind) as [name |] eqn:Hind.
    + destruct (ids_of_inds l inds) as [e | rest] eqn:Hrest.
      * split; [done |]. inversion 1; subst.
        by apply IH in H4.
      * split.
        -- intros [= <-]. constructor; [done | by apply IH].
        -- inversion 1; subst. apply IH in H4. congruence.
    + split; [done |]. inversion 1; congruence.
Qed.

Lemma ids_of_inds_inl l inds e :
  ids_of_inds l inds = inl e ->
  e = IndexError /\ Exists (fun ind => (length l <= ind)%nat) inds.
Proof.
  induction inds as [| ind inds IH]; simpl; [done |].
  destruct (l !! ind) as [name |] eqn:Hind.
  - destruct (ids_of_inds l inds) as [e' | rest]; [| done].
    intros [= <-]. destruct (IH eq_refl) as [-> ?].
    split; [done | by apply Exists_cons_tl].
  - intros [= <-]. split; [done |]. apply Exists_cons_hd.
    by apply lookup_ge_None.
Qed.

Lemma zip_recs_lookup names ds j n :
  zip_recs names ds !! j = Some n <->
  names !! j = Some (Rec.id_ n) /\ ds !! j = Some (Rec.dist n).
Proof.
  revert ds j. induction names as [| name names IH]; intros ds j.
  - simpl. rewrite !lookup_nil. split; [done | by intros [? _]].
  - destruct ds as [| d ds]; simpl.
    + rewrite !lookup_nil. split; [done | by intros [_ ?]].
    + destruct j as [| j]; simpl; [| apply IH].
      split; [by intros [= <-] |]. intros [[= ->] [= ->]]. by destruct n.
Qed.

Lemma zip_recs_length names ds :
  length (zip_recs names ds) = (length names `min` length ds)%nat.
Proof.
  revert ds. induction names as [| name names IH]; intros [| d ds];
    simpl; auto.
Qed.

(** X1. [recs_via_ann_out] calls nothing. It raises only [IndexError], and
    only when the engine returned an ordinal beyond [ids]; otherwise it
    returns, in the order of the engine, one neighbour per ordinal (per
    ordinal and distance when distances are included), whose identifier is
    [ids] at that ordinal and whose distance is the one of the engine, or
    [None] when distances are not included. *)
Theorem recs_via_ann_out_spec self ann_out incl_dist :
  trace (recs_via_ann_out self ann_out incl_dist) = [] /\
  (forall e, outcome (recs_via_ann_out self ann_out incl_dist) = inl e ->
     e = IndexError /\
     Exists (fun ind => (length (ids self) <= ind)%nat) (fst ann_out)) /\
  (forall ns, outcome (recs_via_ann_out self ann_out incl_dist) = inr ns ->
     length ns =
       (if incl_dist
        then (length (fst ann_out) `min` length (snd ann_out))%nat
        else length (fst ann_out)) /\
     forall j n, ns !! j = Some n ->
       exists ind, fst ann_out !! j = Some ind /\
         ids self !! ind = Some (Rec.id_ n) /\
         Rec.dist n = if incl_dist then snd ann_out !! j else None).
Proof.
  unfold recs_via_ann_out.
  destruct (ids_of_inds (ids self) (fst ann_out)) as [e | names] eqn:Hn;
    simpl.
  - split; [done |]. split; [| done].
    intros e' [= <-]. by apply ids_of_inds_inl.
  - split; [done |]. split; [done |]. intros ns [= <-].
    apply ids_of_inds_Forall2 in Hn.
    pose proof (Forall2_length _ _ _ Hn) as Hlen.
    split.
    + rewrite zip_recs_length.
      destruct incl_dist; [by rewrite length_map, Hlen |].
      rewrite length_replicate. lia.
    + intros j n Hj. apply zip_recs_lookup in Hj as [Hname Hd].
      destruct (Forall2_lookup_r _ _ _ _ _ Hn Hname) as (ind & Hind & Hid).
      exists ind. split; [done |]. split; [done |].
      destruct incl_dist.
      * rewrite list_lookup_fmap in Hd.
        destruct (snd ann_out !! j); simpl in Hd; congruence.
      * apply lookup_replicate in Hd as [Hd _]. congruence.
Qed.

Lemma recs_via_ann_out_spec_witness :
  outcome (recs_via_ann_out Examples.shop ([7%nat], []) false) =
    inl IndexError /\
  Exists (fun ind => (length (ids Examples.shop) <= ind)%nat) [7%nat] /\
  length [Rec.mk "B" (Some (2 # 10)%Q)] = 1%nat.
Proof.
  pose proof (proj1 (proj2 (recs_via_ann_out_spec Examples.shop
                              ([7%nat], []) false)) IndexError eq_refl)
    as [_ Hex].
  pose proof (proj2 (proj2 (recs_via_ann_out_spec Examples.shop
                              ([1%nat; 2%nat], [(2 # 10)%Q]) true))
                [Rec.mk "B" (Some (2 # 10)%Q)] eq_refl) as [Hlen _].
  split; [reflexivity | split; [exact Hex | exact Hlen]].
Defined.

(** ** The stored vector of an identifier *)



(** ** The GET handler *)

(** X3. [on_get] answers 200 whenever it returns: with the vector as body
    when one is found, with no body otherwise; for an identifier of the
    index whose vector the engine yields, the body is that vector. It has
    no handler of its own: a request without [id] raises [KeyError], and an
    exception of the store or of the engine leaves [on_get] as it is, where
    [on_post] would answer 200. *)
Theorem on_get_responses self params_id :
  (forall resp, outcome (on_get self params_id) = inr resp ->
     g_status resp = HTTP_200 /\
     exists q_id, params_id = Some q_id /\
       outcome (get_vector self q_id) = inr (g_body resp)) /\
  (params_id = None ->
     on_get self params_id = ([], inl (KeyError "id"))) /\
  (forall q_id e, params_id = Some q_id ->
     outcome (get_vector self q_id) = inl e ->
     on_get self params_id = (trace (get_vector self q_id), inl e)) /\
  (forall q_id q_ind v, params_id = Some q_id ->
     ids_d self !! q_id = Some q_ind ->
     get_item_vector (ann_index self) q_ind = inr v ->
     on_get self params_id =
       ([EvItemVector (path_tar self) q_ind],
        inr {| g_status := HTTP_200; g_body := Some v |})).
Proof.
  unfold on_get. split; [| split; [| split]].
  - intros resp H. apply outcome_bind_inr in H as (q_id & Hq & H1).
    apply outcome_bind_inr in H1 as (q_emb & Hv & H2).
    destruct params_id as [q |]; [| done]. injection Hq as ->.
    destruct q_emb; injection H2 as <-; eauto.
  - by intros ->.
  - intros q_id e -> He. rewrite bind_lift_inr.
    apply bind_inl. rewrite <- He. apply eta.
  - intros q_id q_ind v -> Hin Hv. rewrite bind_lift_inr.
    rewrite get_vector_unfold, Hin, Hv. reflexivity.
Qed.

Lemma on_get_responses_witness :
  on_get Examples.shop (Some "A"%string) =
    ([EvItemVector "shop" 0],
     inr {| g_status := HTTP_200; g_body := Some [1%Q; 0%Q; 0%Q] |}) /\
  on_get Cases.behind_broken_table (Some "A"%string) =
    ([EvDynamoGet "guarded" "A"], inl StoreError) /\
  on_get Examples.shop None = ([], inl (KeyError "id")) /\
  g_status {| g_status := HTTP_200; g_body := None |} = HTTP_200.
Proof.
  split; [| split; [| split]].
  - exact (proj2 (proj2 (proj2 (on_get_responses Examples.shop (Some "A"%string))))
             "A"%string 0%nat [1%Q; 0%Q; 0%Q] eq_refl eq_refl eq_refl).
  - exact (proj1 (proj2 (proj2
             (on_get_responses Cases.behind_broken_table (Some "A"%string))))
             "A"%string StoreError eq_refl eq_refl).
  - exact (proj1 (proj2 (on_get_responses Examples.shop None)) eq_refl).
  - exact (proj1 (proj1 (on_get_responses Examples.orphan (Some "Z"%string))
             {| g_status := HTTP_200; g_body := None |} eq_refl)).
Defined.

(** ** Truncation and the use of the fallback parent *)

(** X4. For [k >= 0] a query that returns has at most [k] neighbours,
    whatever the flags, the threshold and the fallback chain; for [k = 0]
    it returns the empty list. *)
Theorem at_most_k_neighbors self payload k ns :
  p_k payload = Some k -> 0 <= k ->
  outcome (nn_from_payload self payload) = inr ns ->
  Z.of_nat (length ns) <= k /\ (k = 0 -> ns = []).
Proof.
  intros Hk Hpos H.
  pose proof (nn_from_payload_length self payload k ns Hk Hpos H) as Hlen.
  split; [done |]. intros ->. destruct ns; [done | simpl in Hlen; lia].
Qed.

Lemma at_most_k_neighbors_witness :
  Z.of_nat (length [Rec.mk "B" None; Rec.mk "C" None]) <= 2 /\
  outcome (nn_from_payload Examples.shop_with_archive (Examples.by_id "A" 0)) =
    inr [].
Proof.
  split.
  - exact (proj1 (at_most_k_neighbors Examples.shop (Examples.by_id "A" 2) 2
                    [Rec.mk "B" None; Rec.mk "C" None]
                    eq_refl (Zle_0_pos 2) eq_refl)).
  - reflexivity.
Defined.

(** X5. When the own search returns at least [k] neighbours (always so for
    [k <= 0]), the fallback parent is not asked: the calls of the query are
    those of the own search, and the answer is the same with any fallback
    parent or none. *)
Theorem enough_neighbors_no_fallback self payload k t1 prim :
  p_k payload = Some k ->
  query_of self payload k = (t1, inr prim) ->
  k <= Z.of_nat (length prim) ->
  trace (nn_from_payload self payload) = t1 /\
  forall parent,
    nn_from_payload (set_fallback self parent) payload =
    nn_from_payload self payload.
Proof.
  intros Hk Hq Hlen.
  assert (H : forall r, query_of r payload k = (t1, inr prim) ->
            nn_from_payload r payload =
            (t1, outcome (neighbors <-
                   match thresh_score_of payload with
                   | Some t => lift (thresh_filter t prim)
                   | None => ret prim
                   end ;; ret (slice_to neighbors k)))).
  { intros r Hr. rewrite nn_from_payload_unfold. unfold payload_k.
    rewrite Hk, bind_lift_inr, Hr. cbn [bind].
    rewrite bool_decide_false by lia. rewrite bind_ret.
    destruct (thresh_score_of payload) as [t |]; [| by rewrite app_nil_r].
    destruct (thresh_filter t prim); simpl; by rewrite app_nil_r. }
  split; [by rewrite (H self Hq) |].
  intros parent. rewrite (H self Hq). apply H.
  by rewrite query_of_set_fallback.
Qed.

Lemma enough_neighbors_no_fallback_witness :
  trace (nn_from_payload Examples.shop (Examples.by_id "A" 2)) =
    [EvNnsByItem "shop" 0 3 false] /\
  nn_from_payload (set_fallback Examples.shop Examples.orphan)
    (Examples.by_id "A" 2) =
  nn_from_payload Examples.shop (Examples.by_id "A" 2).
Proof.
  pose proof (enough_neighbors_no_fallback Examples.shop
                (Examples.by_id "A" 2) 2 [EvNnsByItem "shop" 0 3 false]
                [Rec.mk "B" None; Rec.mk "C" None]
                eq_refl eq_refl) as H.
  destruct H as [Ht Hp]; [vm_compute; congruence |].
  split; [exact Ht | exact (Hp Examples.orphan)].
Defined.

(** X6. An exception of the fallback parent is the exception of the whole
    query: when the own search is short and the parent raises, the
    neighbours already found are lost. *)
Theorem failing_fallback_fails_query self parent payload k t1 prim t2 e :
  fallback_parent self = Some parent ->
  p_k payload = Some k ->
  query_of self payload k = (t1, inr prim) ->
  Z.of_nat (length prim) < k ->
  nn_from_payload parent (with_k payload (k - Z.of_nat (length prim))) =
    (t2, inl e) ->
  nn_from_payload self payload = (t1 ++ t2, inl e).
Proof.
  intros Hparent Hk Hq Hshort Hfb.
  rewrite nn_from_payload_unfold. unfold payload_k.
  rewrite Hk, bind_lift_inr, Hq, Hparent. cbn [bind].
  rewrite bool_decide_true by done. by rewrite Hfb.
Qed.

Lemma failing_fallback_fails_query_witness :
  outcome (query_of Examples.shop_with_archive (Examples.by_id "A" 5) 5) =
    inr [Rec.mk "B" None; Rec.mk "C" None; Rec.mk "D" None] /\
  nn_from_payload Examples.shop_with_archive (Examples.by_id "A" 5) =
    ([EvNnsByItem "shop" 0 6 false],
     inl (Exception_ "Q is ooi and no ooi dynamo table was set")) /\
  body (snd (on_post Examples.shop_with_archive
               (inr (Examples.by_id "A" 5)))) = BodyEmptyList.
Proof.
  split; [reflexivity | split; [| reflexivity]].
  exact (failing_fallback_fails_query Examples.shop_with_archive
           Examples.archive (Examples.by_id "A" 5) 5
           [EvNnsByItem "shop" 0 6 false]
           [Rec.mk "B" None; Rec.mk "C" None; Rec.mk "D" None]
           [] (Exception_ "Q is ooi and no ooi dynamo table was set")
           eq_refl eq_refl eq_refl eq_refl eq_refl).
Defined.

(** ** What every returned neighbour inherits from the searches *)

(** A property of the neighbours that every single search yields holds of
    the neighbours of the whole resolution. *)
Lemma nn_from_payload_Forall (P : Rec.t -> Prop) self :
  forall payload,
    (forall r k ns, outcome (query_of r payload k) = inr ns -> Forall P ns) ->
    forall ns, outcome (nn_from_payload self payload) = inr ns -> Forall P ns.
Proof.
  induction self as [self IHf _] using ANNResource_chain_ind.
  intros payload HP ns H. rewrite nn_from_payload_unfold in H.
  apply outcome_bind_inr in H as (k & _ & H1).
  apply outcome_bind_inr in H1 as (prim & Hprim & H2).
  apply outcome_bind_inr in H2 as (all & Hall & H3).
  apply outcome_bind_inr in H3 as (kept & Hkept & [= <-]).
  apply slice_to_Forall. apply HP in Hprim.
  assert (Ha : Forall P all).
  { destruct (bool_decide _); [| by injection Hall as <-].
    destruct (fallback_parent self) as [parent |];
      [| by injection Hall as <-].
    apply outcome_bind_inr in Hall as (fb & Hfb & [= <-]).
    apply Forall_app. split; [done |].
    apply (IHf parent eq_refl
             (with_k payload (k - Z.of_nat (length prim)))); [| done].
    intros r k' ns'. apply (HP r k' ns'). }
  destruct (thresh_score_of payload) as [t |]; [| by injection Hkept as <-].
  by apply (thresh_filter_Forall _ t all).
Qed.

Lemma query_of_Forall (P : Rec.t -> Prop) r payload k ns :
  (forall ann_out ns',
     outcome (recs_via_ann_out r ann_out (include_distances_of payload)) =
       inr ns' -> Forall P ns') ->
  outcome (query_of r payload k) = inr ns -> Forall P ns.
Proof.
  intros HP.
  assert (Hemb : forall v ns',
    outcome (nn_from_emb r v k (include_distances_of payload)) = inr ns' ->
    Forall P ns').
  { intros v ns' H. unfold nn_from_emb in H.
    apply outcome_bind_inr in H as (? & _ & H1).
    apply outcome_bind_inr in H1 as (out & _ & H2). by apply HP in H2. }
  unfold query_of. destruct (p_id payload) as [q_id |].
  - unfold nn_from_id. intros H.
    apply outcome_bind_inr in H as (found & Hfound & [= <-]).
    apply filter_Forall_inv.
    destruct (ids_d r !! q_id).
    + apply outcome_bind_inr in Hfound as (? & _ & H1).
      apply outcome_bind_inr in H1 as (out & _ & H2). by apply HP in H2.
    + destruct (ooi_dynamo_table r).
      * apply outcome_bind_inr in Hfound as ([v |] & _ & H1); [| done].
        by apply Hemb in H1.
      * destruct (ooi_ann r); [| done].
        apply outcome_bind_inr in Hfound as ([v |] & _ & H1); [| done].
        by apply Hemb in H1.
  - destruct (p_emb payload); [apply Hemb | done].
Qed.

Lemma recs_via_ann_out_no_dist self ann_out ns :
  outcome (recs_via_ann_out self ann_out false) = inr ns ->
  Forall (fun n => Rec.dist n = None) ns.
Proof.
  unfold recs_via_ann_out. intros H.
  apply outcome_bind_inr in H as (l & _ & [= <-]).
  apply Forall_forall. intros n Hn.
  apply list_elem_of_lookup in Hn as [j Hj].
  apply zip_recs_lookup in Hj as [_ Hd].
  apply lookup_replicate in Hd as [Hd _]. congruence.
Qed.

Lemma distances_or_none self payload ns :
  outcome (nn_from_payload self payload) = inr ns ->
  (include_distances_of payload = true /\
   Forall (fun n => is_Some (Rec.dist n) /\ is_Some (Rec.score n)) ns) \/
  (include_distances_of payload = false /\
   Forall (fun n => Rec.dist n = None /\ Rec.score n = None) ns).
Proof.
  intros H. destruct (include_distances_of payload) eqn:Hincl; [left | right];
    (split; [done |]).
  - apply (nn_from_payload_Forall _ self payload); [| done].
    intros r k ns' Hq. apply (query_of_Forall _ r payload k); [| done].
    rewrite Hincl. intros out l Hl.
    apply recs_via_ann_out_has_dist in Hl.
    apply (Forall_impl _ _ _ Hl). intros n [d Hd].
    unfold Rec.score. rewrite Hd. eauto.
  - apply (nn_from_payload_Forall _ self payload); [| done].
    intros r k ns' Hq. apply (query_of_Forall _ r payload k); [| done].
    rewrite Hincl. intros out l Hl.
    apply recs_via_ann_out_no_dist in Hl.
    apply (Forall_impl _ _ _ Hl). intros n Hd.
    unfold Rec.score. by rewrite Hd.
Qed.

(** X7. The neighbours of a query carry a distance exactly when the payload
    asks for distances or scores or sets a threshold: then every neighbour
    of the result, from whatever level of the fallback chain, has a
    distance and a score; otherwise none has. *)
Theorem distances_iff_requested self payload ns :
  outcome (nn_from_payload self payload) = inr ns ->
  (include_distances_of payload = true ->
     Forall (fun n => is_Some (Rec.dist n) /\ is_Some (Rec.score n)) ns) /\
  (include_distances_of payload = false ->
     Forall (fun n => Rec.dist n = None /\ Rec.score n = None) ns).
Proof.
  intros H.
  destruct (distances_or_none self payload ns H) as [[Hi Hs] | [Hi Hn]];
    split; intros Hincl; congruence || done.
Qed.

Lemma distances_iff_requested_witness :
  Forall (fun n => is_Some (Rec.dist n) /\ is_Some (Rec.score n))
    [Rec.mk "N" (Some 2%Q)] /\
  Forall (fun n => Rec.dist n = None /\ Rec.score n = None)
    [Rec.mk "B" None; Rec.mk "C" None].
Proof.
  split.
  - exact (proj1 (distances_iff_requested Examples.far
                    (Examples.by_id_scored "A" 1 None)
                    [Rec.mk "N" (Some 2%Q)] eq_refl) eq_refl).
  - exact (proj2 (distances_iff_requested Examples.shop
                    (Examples.by_id "A" 2)
                    [Rec.mk "B" None; Rec.mk "C" None] eq_refl) eq_refl).
Defined.

(** X8. The body of a successful POST lists the neighbours in the order
    of the resolution. Each entry has the key [dist] exactly when
    [incl_dist] is set and the key [score] exactly when [incl_score] is
    set, and a key that is there holds a number, never [None]. A
    threshold alone adds no key. *)
Theorem on_post_body_keys self payload ns :
  outcome (nn_from_payload self payload) = inr ns ->
  exists recs,
    body (snd (on_post self (inr payload))) = BodyRecs recs "-" /\
    map Rec.d_id recs = map Rec.id_ ns /\
    Forall (fun d =>
      (if default false (p_incl_dist payload)
       then exists x, Rec.d_dist d = Some (Some x)
       else Rec.d_dist d = None) /\
      (if default false (p_incl_score payload)
       then exists s, Rec.d_score d = Some (Some s)
       else Rec.d_score d = None)) recs.
Proof.
  intros H. eexists. split; [| split].
  - unfold on_post. rewrite bind_lift_inr.
    destruct (nn_from_payload self payload) as [t [e | ns']]; [done |].
    injection H as ->. reflexivity.
  - rewrite map_map. reflexivity.
  - apply Forall_map.
    destruct (distances_or_none self payload ns H) as [Hsome | Hnone].
    + apply (Forall_impl _ _ _ (proj2 Hsome)). intros n [[x Hx] [s Hs]].
      unfold Rec.to_dict. simpl. rewrite Hx, Hs.
      split; [destruct (default false _) | destruct (default false _)]; eauto.
    + destruct Hnone as [Hincl Hnone].
      unfold include_distances_of in Hincl.
      apply orb_false_iff in Hincl as [Hincl _].
      apply orb_false_iff in Hincl as [-> ->].
      apply Forall_true. done.
Qed.

Lemma on_post_body_keys_witness :
  exists recs,
    body (snd (on_post Examples.far
                 (inr (Examples.by_id_scored "A" 1 None)))) =
      BodyRecs recs "-" /\
    map Rec.d_id recs = ["N"%string] /\
    Forall (fun d => Rec.d_dist d = None /\
                     exists s, Rec.d_score d = Some (Some s)) recs.
Proof.
  destruct (on_post_body_keys Examples.far (Examples.by_id_scored "A" 1 None)
              [Rec.mk "N" (Some 2%Q)] eq_refl) as (recs & Hb & Hm & Hk).
  exists recs. split; [exact Hb | split; [exact Hm | exact Hk]].
Defined.

(** ** The threshold filter *)

Lemma thresh_filter_sublist t l l' :
  thresh_filter t l = inr l' -> l' `sublist_of` l.
Proof.
  revert l'. induction l as [| n l IH]; simpl; intros l' H.
  - by injection H as <-.
  - destruct (Rec.score n); [| done].
    destruct (thresh_filter t l) as [| rest]; [done |].
    injection H as <-. specialize (IH rest eq_refl).
    destruct (Qltb t q); [by apply sublist_skip | by apply sublist_cons].
Qed.

Lemma thresh_filter_elem_of t l l' n :
  thresh_filter t l = inr l' -> (n ∈ l' <-> n ∈ l /\ passes t n).
Proof.
  revert l'. induction l as [| m l IH]; simpl; intros l' H.
  - injection H as <-. rewrite elem_of_nil. tauto.
  - destruct (Rec.score m) as [s |] eqn:Hs; [| done].
    destruct (thresh_filter t l) as [| rest]; [done |].
    injection H as <-. specialize (IH rest eq_refl).
    assert (Hm : passes t m <-> Qltb t s = true).
    { rewrite Qltb_lt. split; [intros (s' & Hs' & ?); congruence |].
      intros ?. by exists s. }
    destruct (Qltb t s) eqn:Hlt; rewrite ?elem_of_cons, IH.
    + split; [intros [-> | [? ?]] | intros [[-> | ?] ?]]; auto.
      split; [auto | by apply Hm].
    + split; [intros [? ?]; auto |]. intros [[-> | ?] Hp]; [| done].
      apply Hm in Hp. congruence.
Qed.

Lemma thresh_filter_inl t l e :
  thresh_filter t l = inl e ->
  e = TypeError /\ Exists (fun n => Rec.dist n = None) l.
Proof.
  induction l as [| n l IH]; simpl; [done |].
  destruct (Rec.score n) as [s |] eqn:Hs.
  - destruct (thresh_filter t l) as [e' |]; [| done].
    intros [= <-]. destruct (IH eq_refl) as [-> ?].
    split; [done | by apply Exists_cons_tl].
  - intros [= <-]. split; [done |]. apply Exists_cons_hd.
    unfold Rec.score in Hs. by destruct (Rec.dist n).
Qed.

(** X9. The threshold comparison of lines 215-216 keeps, in their order,
    exactly the neighbours whose score is above the threshold; applying it
    again changes nothing. It raises only [TypeError], and only when a
    neighbour has no distance. *)
Theorem thresh_filter_spec t l :
  (forall l', thresh_filter t l = inr l' ->
     l' `sublist_of` l /\
     (forall n, n ∈ l' <-> n ∈ l /\ passes t n) /\
     thresh_filter t l' = inr l') /\
  (forall e, thresh_filter t l = inl e ->
     e = TypeError /\ Exists (fun n => Rec.dist n = None) l).
Proof.
  split; [| intros e; apply (thresh_filter_inl t l e)].
  intros l' H. split; [by apply (thresh_filter_sublist t) |].
  split; [intros n; by apply (thresh_filter_elem_of t) |].
  by apply thresh_filter_id, (thresh_filter_passes t l).
Qed.

Lemma thresh_filter_spec_witness :
  thresh_filter (1 # 2) [Rec.mk "Y" (Some (2 # 10)%Q)] =
    inr [Rec.mk "Y" (Some (2 # 10)%Q)] /\
  Exists (fun n => Rec.dist n = None) [Rec.mk "B" None].
Proof.
  split.
  - exact (proj2 (proj2 (proj1 (thresh_filter_spec (1 # 2)
             [Rec.mk "X" (Some (18 # 10)%Q); Rec.mk "Y" (Some (2 # 10)%Q)])
             [Rec.mk "Y" (Some (2 # 10)%Q)] eq_refl))).
  - exact (proj2 (proj2 (thresh_filter_spec (1 # 2) [Rec.mk "B" None])
             TypeError eq_refl)).
Defined.

(** ** The order of the result *)

(** X10. With or without a threshold, the result of a query is a
    subsequence of the own neighbours followed by the neighbours of the
    fallback parent: the order of each part is kept and no own neighbour
    comes after a neighbour of the parent. When the parent is not asked it
    is a subsequence of the own neighbours. *)
Theorem result_order self payload k prim ns :
  p_k payload = Some k ->
  outcome (query_of self payload k) = inr prim ->
  outcome (nn_from_payload self payload) = inr ns ->
  (forall parent fb,
     fallback_parent self = Some parent ->
     Z.of_nat (length prim) < k ->
     outcome (nn_from_payload parent
                (with_k payload (k - Z.of_nat (length prim)))) = inr fb ->
     ns `sublist_of` prim ++ fb) /\
  (fallback_parent self = None \/ k <= Z.of_nat (length prim) ->
     ns `sublist_of` prim).
Proof.
  intros Hk Hq H. rewrite nn_from_payload_unfold in H.
  unfold payload_k in H. rewrite Hk, bind_lift_inr in H.
  apply outcome_bind_inr in H as (prim' & Hprim' & H1).
  assert (prim' = prim) as -> by congruence.
  apply outcome_bind_inr in H1 as (all & Hall & H2).
  apply outcome_bind_inr in H2 as (kept & Hkept & [= <-]).
  assert (Hs : slice_to kept k `sublist_of` all).
  { transitivity kept.
    - unfold slice_to. destruct (0 <=? k); apply sublist_take.
    - destruct (thresh_score_of payload) as [t |];
        [by apply (thresh_filter_sublist t) | by injection Hkept as <-]. }
  split.
  - intros parent fb Hparent Hshort Hfb.
    rewrite bool_decide_true, Hparent in Hall by done.
    apply outcome_bind_inr in Hall as (fb' & Hfb' & [= <-]).
    by assert (fb' = fb) as -> by congruence.
  - intros [Hnone | Hlen].
    + rewrite Hnone in Hall. destruct (bool_decide _); by injection Hall as <-.
    + rewrite bool_decide_false in Hall by lia. by injection Hall as <-.
Qed.

Lemma result_order_witness :
  [Rec.mk "B" (Some (2 # 10)%Q); Rec.mk "E" (Some (1 # 10)%Q);
   Rec.mk "F" (Some (3 # 10)%Q)]
  `sublist_of`
  [Rec.mk "B" (Some (2 # 10)%Q); Rec.mk "C" (Some (6 # 10)%Q)] ++
  [Rec.mk "E" (Some (1 # 10)%Q); Rec.mk "F" (Some (3 # 10)%Q)].
Proof.
  exact (proj1 (result_order Examples.shop_with_archive Examples.above_08 5
                  [Rec.mk "B" (Some (2 # 10)%Q); Rec.mk "C" (Some (6 # 10)%Q)]
                  [Rec.mk "B" (Some (2 # 10)%Q); Rec.mk "E" (Some (1 # 10)%Q);
                   Rec.mk "F" (Some (3 # 10)%Q)]
                  eq_refl eq_refl eq_refl)
           Examples.archive
           [Rec.mk "E" (Some (1 # 10)%Q); Rec.mk "F" (Some (3 # 10)%Q)]
           eq_refl eq_refl eq_refl).
Defined.

(** ** The threshold and the calls of a query *)










(** ** dist_to_score *)

(** X12. [dist_to_score] raises only [KeyError] for [distance], and only
    when an entry lacks that key. Otherwise every entry it returns comes
    from an entry of the input with the same [id] and [distance], has a
    score computed from the distance strictly above the threshold (a
    threshold of 0 is applied like any other) and carries a [score]: the
    one the input entry already had, if any, else the computed one. With
    [False] as threshold every entry is kept. *)
Theorem dist_to_score_spec l score_thresh :
  (forall e, dist_to_score l score_thresh = inl e ->
     e = KeyError "distance" /\ Exists (fun d => nd_distance d = None) l) /\
  (forall out, dist_to_score l score_thresh = inr out ->
     (length out <= length l)%nat /\
     (score_thresh = None -> map nd_id out = map nd_id l) /\
     Forall (fun d' => exists d x,
       d ∈ l /\ nd_id d' = nd_id d /\
       nd_distance d = Some x /\ nd_distance d' = Some x /\
       nd_score d' = Some (default (1 - x / 2)%Q (nd_score d)) /\
       match score_thresh with
       | Some t => (t < 1 - x / 2)%Q
       | None => True
       end) out).
Proof.
  induction l as [| d l [IHe IHo]]; simpl.
  - split; [done |]. intros out [= <-]. by repeat split.
  - destruct (nd_distance d) as [x |] eqn:Hx.
    + destruct (dist_to_score l score_thresh) as [e' | rest].
      * split; [| done]. intros e [= <-].
        destruct (IHe e' eq_refl) as [-> ?].
        split; [done | by apply Exists_cons_tl].
      * split;
          [intros e He; destruct score_thresh as [t |];
           [destruct (Qltb t (1 - x / 2)) |]; discriminate |].
        destruct (IHo rest eq_refl) as (Hlen & Hall & Hout).
        assert (Hrest : Forall (fun d' => exists d0 x0,
          d0 ∈ d :: l /\ nd_id d' = nd_id d0 /\
          nd_distance d0 = Some x0 /\ nd_distance d' = Some x0 /\
          nd_score d' = Some (default (1 - x0 / 2)%Q (nd_score d0)) /\
          match score_thresh with
          | Some t => (t < 1 - x0 / 2)%Q
          | None => True
          end) rest).
        { apply (Forall_impl _ _ _ Hout).
          intros d' (d0 & x0 & Hin & ?). exists d0, x0.
          split; [by apply list_elem_of_further | done]. }
        destruct score_thresh as [t |].
        -- destruct (Qltb t (1 - x / 2)) eqn:Hlt; intros out [= <-].
           ++ split; [simpl; lia | split; [done |]].
              constructor; [| done]. exists d, x.
              apply Qltb_lt in Hlt.
              repeat split; [apply list_elem_of_here | done..].
           ++ split; [simpl; lia | split; [done | done]].
        -- intros out [= <-].
           split; [simpl; lia | split; [intros _; simpl; by rewrite Hall |]].
           constructor; [| done]. exists d, x.
           repeat split; [apply list_elem_of_here | done..].
    + split; [| done]. intros e [= <-]. split; [done |].
      by apply Exists_cons_hd.
Qed.

Lemma dist_to_score_spec_witness :
  dist_to_score Cases.dicts (Some 0%Q) =
    inr [mk_ndict "B" (Some (2 # 10)) (Some (1 - (2 # 10) / 2)%Q);
         mk_ndict "C" (Some (6 # 10)) (Some 5%Q)] /\
  map nd_id [mk_ndict "B" (Some (2 # 10)) (Some (1 - (2 # 10) / 2)%Q);
             mk_ndict "N" (Some 2%Q) (Some (1 - 2 / 2)%Q);
             mk_ndict "C" (Some (6 # 10)) (Some 5%Q)] =
    map nd_id Cases.dicts /\
  Exists (fun d => nd_distance d = None) [mk_ndict "B" None None].
Proof.
  split; [reflexivity | split].
  - exact (proj1 (proj2 (proj2 (dist_to_score_spec Cases.dicts None) _
                           eq_refl)) eq_refl).
  - exact (proj2 (proj1 (dist_to_score_spec [mk_ndict "B" None None] None)
                    (KeyError "distance") eq_refl)).
Defined.


(** ** How many neighbours the self-match exclusion removes *)

Lemma ids_of_inds_total l inds :
  Forall (fun ind => (ind < length l)%nat) inds ->
  exists names, ids_of_inds l inds = inr names.
Proof.
  induction 1 as [| ind inds Hind _ [names IH]]; simpl; [by eexists |].
  apply lookup_lt_is_Some in Hind as [name Hname].
  rewrite Hname, IH. by eexists.
Qed.

Lemma ids_of_inds_NoDup l inds names :
  NoDup l -> NoDup inds -> ids_of_inds l inds = inr names -> NoDup names.
Proof.
  intros Hl Hinds H. apply ids_of_inds_Forall2 in H.
  induction H as [| ind name inds names Hname Hrest IH]; [constructor |].
  apply NoDup_cons in Hinds as [Hnot Hinds].
  constructor; [| by apply IH].
  intros Hin. apply list_elem_of_lookup in Hin as [j Hj].
  destruct (Forall2_lookup_r _ _ _ _ _ Hrest Hj) as (ind' & Hind' & Hname').
  assert (ind = ind') as -> by by apply (NoDup_lookup l ind ind' name).
  apply Hnot. by apply list_elem_of_lookup_2 in Hind'.
Qed.

Lemma zip_recs_ids names ds :
  (length names <= length ds)%nat -> map Rec.id_ (zip_recs names ds) = names.
Proof.
  revert ds. induction names as [| name names IH]; intros [| d ds] Hlen;
    simpl in *; try done; try lia.
  f_equal. apply IH. lia.
Qed.

Lemma filter_self_length (q_id : ident) (recs : list Rec.t) :
  NoDup (map Rec.id_ recs) ->
  (length (filter (fun n => Rec.id_ n <> q_id) recs) <= length recs)%nat /\
  (length recs <= S (length (filter (fun n => Rec.id_ n <> q_id) recs)))%nat /\
  (q_id ∈ map Rec.id_ recs ->
   length recs = S (length (filter (fun n => Rec.id_ n <> q_id) recs))) /\
  (q_id ∉ map Rec.id_ recs ->
   filter (fun n => Rec.id_ n <> q_id) recs = recs).
Proof.
  induction recs as [| n recs IH]; simpl; intros Hnd.
  - split; [lia | split; [lia | split; [| done]]].
    intros Hq. by apply elem_of_nil in Hq.
  - apply NoDup_cons in Hnd as [Hnot Hnd].
    destruct (IH Hnd) as (Hle & Hge & Hin & Hout).
    rewrite filter_cons. destruct (decide (Rec.id_ n <> q_id)) as [Hne | Heq].
    + simpl. split; [lia | split; [lia | split]].
      * intros Hq. apply elem_of_cons in Hq as [? | Hq]; [congruence |].
        by rewrite (Hin Hq).
      * intros Hq. rewrite Hout; [done |].
        intros ?. apply Hq. by apply list_elem_of_further.
    + apply dec_stable in Heq. subst q_id.
      rewrite (Hout Hnot). split; [lia | split; [lia | split; [done |]]].
      intros Hq. exfalso. apply Hq. apply list_elem_of_here.
Qed.

(** X14. When the identifiers of the index are distinct and the engine
    returns distinct ordinals of the index (with a distance for each when
    distances are included), the search by an identifier of the index
    succeeds and the self-match exclusion removes at most one neighbour,
    and exactly one when the query item is among the ordinals. An engine
    that returns [k + 1] ordinals therefore leaves at least [k]
    neighbours. *)
Theorem self_match_removes_at_most_one self q_id q_ind k incl inds dists :
  ids_d self !! q_id = Some q_ind ->
  get_nns_by_item (ann_index self) q_ind (k + 1) incl = inr (inds, dists) ->
  NoDup (ids self) -> NoDup inds ->
  Forall (fun ind => (ind < length (ids self))%nat) inds ->
  (incl = true -> (length inds <= length dists)%nat) ->
  exists ns,
    outcome (nn_from_id self q_id k incl) = inr ns /\
    (length ns <= length inds)%nat /\
    (length inds <= S (length ns))%nat /\
    (ids self !! q_ind = Some q_id -> q_ind ∈ inds ->
     length inds = S (length ns)) /\
    (Z.of_nat (length inds) = k + 1 -> k <= Z.of_nat (length ns)).
Proof.
  intros Hin Hout Hids Hinds Hrange Hdists.
  destruct (ids_of_inds_total (ids self) inds Hrange) as [names Hnames].
  pose proof (ids_of_inds_NoDup _ _ _ Hids Hinds Hnames) as Hnd.
  pose proof Hnames as Hf. apply ids_of_inds_Forall2 in Hf.
  pose proof (Forall2_length _ _ _ Hf) as Hlen.
  set (ds := if incl then map Some dists
             else replicate (length inds) (@None Q)).
  assert (Hds : (length names <= length ds)%nat).
  { subst ds. destruct incl.
    - rewrite length_map, <- Hlen. by apply Hdists.
    - rewrite length_replicate. lia. }
  pose proof (zip_recs_ids names ds Hds) as Hmap.
  assert (Hrecs : length (zip_recs names ds) = length inds).
  { rewrite zip_recs_length. lia. }
  exists (filter (fun n => Rec.id_ n <> q_id) (zip_recs names ds)).
  rewrite <- Hmap in Hnd.
  destruct (filter_self_length q_id (zip_recs names ds) Hnd)
    as (Hle & Hge & Hex & _).
  split.
  { unfold nn_from_id, recs_via_ann_out. rewrite Hin, Hout. simpl.
    by rewrite Hnames. }
  split; [lia | split; [lia | split; [| lia]]].
  intros Hself Hmem. rewrite <- Hrecs. apply Hex. rewrite Hmap.
  apply list_elem_of_lookup in Hmem as [j Hj].
  destruct (Forall2_lookup_l _ _ _ _ _ Hf Hj) as (name & Hname & Hlook).
  assert (name = q_id) as -> by congruence.
  by apply list_elem_of_lookup_2 in Hname.
Qed.

Lemma self_match_removes_at_most_one_witness :
  exists ns,
    outcome (nn_from_id Examples.shop "A" 2 false) = inr ns /\
    3%nat = S (length ns) /\ 2 <= Z.of_nat (length ns).
Proof.
  destruct (self_match_removes_at_most_one Examples.shop "A" 0 2 false
              [0%nat; 1%nat; 2%nat] [0%Q; (2 # 10)%Q; (6 # 10)%Q]
              eq_refl eq_refl) as (ns & Hns & _ & _ & Hex & Hk).
  - compute_done.
  - compute_done.
  - repeat constructor.
  - discriminate.
  - exists ns. split; [exact Hns | split].
    + apply Hex; [reflexivity |]. apply list_elem_of_here.
    + apply Hk. reflexivity.
Defined.

(** ** The calls of a search *)

Lemma searches_app t1 t2 : searches (t1 ++ t2) = (searches t1 + searches t2)%nat.
Proof. unfold searches. by rewrite filter_app, length_app. Qed.

Lemma nn_from_emb_trace self q_emb k incl :
  trace (nn_from_emb self q_emb k incl) =
    [EvNnsByVector (path_tar self) q_emb k incl].
Proof.
  unfold nn_from_emb, recs_via_ann_out.
  destruct (get_nns_by_vector _ _ _ _) as [e | out]; [done |]. simpl.
  by destruct (ids_of_inds _ _).
Qed.

Lemma get_vector_trace self q_id :
  (length (trace (get_vector self q_id)) <= 1)%nat /\
  searches (trace (get_vector self q_id)) = 0%nat.
Proof.
  induction self as [self _ IHo] using ANNResource_chain_ind.
  rewrite get_vector_unfold. unfold get_dynamo_emb.
  destruct (ids_d self !! q_id) as [q_ind |].
  { by destruct (get_item_vector (ann_index self) q_ind). }
  destruct (ooi_dynamo_table self) as [table |]; [done |].
  destruct (ooi_ann self) as [peer |]; [by apply IHo | simpl; split; [lia | done]].
Qed.

Lemma trace_bind_ret {A B} (m : M A) (f : A -> B) :
  trace (a <- m ;; ret (f a)) = trace m.
Proof. destruct m as [t [e | a]]; simpl; [done | apply app_nil_r]. Qed.

(** X15. A search by identifier makes at most one lookup of a vector (in
    the table, or along the peer indexes) and then at most one search, and
    that search is on the own index: by item for [k + 1] results, or by the
    vector found (the one the table holds, or the one [get_vector] of the
    peer returns) for [k] results. The peer index is never searched. *)
Theorem nn_from_id_calls self q_id k incl :
  exists lookup search,
    trace (nn_from_id self q_id k incl) = lookup ++ search /\
    (length lookup <= 1)%nat /\ searches lookup = 0%nat /\
    (search = [] \/
     (exists q_ind, ids_d self !! q_id = Some q_ind /\ lookup = [] /\
        search = [EvNnsByItem (path_tar self) q_ind (k + 1) incl]) \/
     (exists v, ids_d self !! q_id = None /\
        search = [EvNnsByVector (path_tar self) v k incl] /\
        ((exists table, ooi_dynamo_table self = Some table /\
            table q_id = inr (Some v)) \/
         (ooi_dynamo_table self = None /\
          exists peer, ooi_ann self = Some peer /\
            outcome (get_vector peer q_id) = inr (Some v))))).
Proof.
  unfold nn_from_id. rewrite trace_bind_ret.
  destruct (ids_d self !! q_id) as [q_ind |] eqn:Hin.
  - exists [], [EvNnsByItem (path_tar self) q_ind (k + 1) incl].
    split; [| split; [simpl; lia | split; [done |]]].
    + unfold recs_via_ann_out.
      destruct (get_nns_by_item _ _ _ _) as [e | out]; [done |]. simpl.
      by destruct (ids_of_inds _ _).
    + right. left. by exists q_ind.
  - destruct (ooi_dynamo_table self) as [table |].
    + unfold get_dynamo_emb. rewrite trace_bind.
      destruct (table q_id) as [e | [v |]] eqn:Htable;
        cbn [bind emit lift raise trace outcome fst snd app].
      * exists [EvDynamoGet (path_tar self) q_id], [].
        split; [done | split; [simpl; lia | split; [done | by left]]].
      * exists [EvDynamoGet (path_tar self) q_id],
          [EvNnsByVector (path_tar self) v k incl].
        rewrite nn_from_emb_trace.
        split; [done | split; [simpl; lia | split; [done |]]].
        right. right. exists v. split; [done | split; [done |]].
        left. by exists table.
      * exists [EvDynamoGet (path_tar self) q_id], [].
        split; [done | split; [simpl; lia | split; [done | by left]]].
    + destruct (ooi_ann self) as [peer |].
      * destruct (get_vector_trace peer q_id) as [Hlen Hs].
        rewrite trace_bind.
        exists (trace (get_vector peer q_id)).
        destruct (outcome (get_vector peer q_id)) as [e | [v |]] eqn:Hpeer.
        -- exists []. split; [done | split; [done | split; [done | by left]]].
        -- exists [EvNnsByVector (path_tar self) v k incl].
           rewrite nn_from_emb_trace.
           split; [done | split; [done | split; [done |]]].
           right. right. exists v. split; [done | split; [done |]].
           right. split; [done |]. by exists peer.
        -- exists []. split; [done | split; [done | split; [done | by left]]].
      * exists [], []. split; [done | split; [simpl; lia | split; [done | by left]]].
Qed.

Lemma query_of_searches self payload k :
  (searches (trace (query_of self payload k)) <= 1)%nat.
Proof.
  unfold query_of. destruct (p_id payload) as [q_id |].
  - unfold nn_from_id. rewrite trace_bind_ret.
    destruct (ids_d self !! q_id) as [q_ind |].
    + unfold recs_via_ann_out.
      destruct (get_nns_by_item _ _ _ _) as [e | out];
        [unfold searches; simpl; lia |]. simpl.
      destruct (ids_of_inds _ _); unfold searches; simpl; lia.
    + destruct (ooi_dynamo_table self) as [table |].
      * unfold get_dynamo_emb. rewrite trace_bind.
        destruct (table q_id) as [e | [v |]];
          cbn [bind emit lift raise trace outcome fst snd app];
          rewrite ?nn_from_emb_trace; unfold searches; simpl; lia.
      * destruct (ooi_ann self) as [peer |];
          [| unfold searches; simpl; lia].
        destruct (get_vector_trace peer q_id) as [_ Hs].
        rewrite trace_bind, searches_app, Hs.
        destruct (outcome (get_vector peer q_id)) as [e | [v |]];
          rewrite ?nn_from_emb_trace; unfold searches; simpl; lia.
  - destruct (p_emb payload) as [v |];
      rewrite ?nn_from_emb_trace; unfold searches; simpl; lia.
Qed.

(** X16. A query makes at most one search per resource of its fallback
    chain: the number of searches is at most one more than the number of
    fallback parents behind the resource. *)
Theorem one_search_per_level self :
  forall payload,
    (searches (trace (nn_from_payload self payload)) <=
     S (fallback_depth self))%nat.
Proof.
  induction self as [self IHf _] using ANNResource_chain_ind.
  intros payload. rewrite nn_from_payload_unfold, trace_bind.
  destruct (payload_k payload) as [e | k]; simpl; [unfold searches; simpl; lia |].
  rewrite trace_bind, searches_app.
  pose proof (query_of_searches self payload k) as Hq.
  destruct (outcome (query_of self payload k)) as [e | prim];
    [unfold searches at 2; simpl; lia |].
  rewrite trace_bind, searches_app.
  assert (Hfilter : forall all,
    searches
      (trace (neighbors <-
                match thresh_score_of payload with
                | Some t => lift (thresh_filter t all)
                | None => ret all
                end ;; ret (slice_to neighbors k))) = 0%nat).
  { intros all. rewrite trace_bind_ret.
    by destruct (thresh_score_of payload). }
  assert (Htail : forall m : M (list Rec.t),
    searches
      match outcome m with
      | inl _ => []
      | inr all =>
          trace (neighbors <-
                   match thresh_score_of payload with
                   | Some t => lift (thresh_filter t all)
                   | None => ret all
                   end ;; ret (slice_to neighbors k))
      end = 0%nat).
  { intros m. destruct (outcome m); [done | apply Hfilter]. }
  rewrite Htail.
  destruct (bool_decide _); [| unfold searches at 2; simpl; lia].
  destruct (fallback_parent self) as [parent |] eqn:Hparent;
    [| unfold searches at 2; simpl; lia].
  rewrite trace_bind_ret.
  pose proof (IHf parent eq_refl
                (with_k payload (k - Z.of_nat (length prim)))) as IH.
  destruct self; simpl in *. subst. lia.
Qed.
